(** * Verification of the go-validator tag parser, rule registry,
      value validator and record traversal.

    The development is a shallow embedding of [validator.go] and of the
    built-in rules file.  Go strings are byte strings ([string]); Go maps
    are finite maps ([gmap]); a Go [panic] is the outcome [Panic]. *)

From Stdlib Require Import Ascii String ZArith Bool List.
From Stdlib Require PrimFloat FloatOps FloatAxioms SpecFloat.
From stdpp Require Import base option list gmap strings.

Local Open Scope stdpp_scope.

(** ** Byte strings *)

Module Str.

Fixpoint all (P : ascii → bool) (s : string) : bool :=
  match s with
  | EmptyString => true
  | String c s' => P c && all P s'
  end.

Fixpoint take (n : nat) (s : string) : string :=
  match n, s with
  | S n', String c s' => String c (take n' s')
  | _, _ => EmptyString
  end.

Fixpoint dropWhile (P : ascii → bool) (s : string) : string :=
  match s with
  | String c s' => if P c then dropWhile P s' else s
  | EmptyString => EmptyString
  end.

(** [dropWhileEnd P s] removes the longest suffix of [s] whose bytes all
    satisfy [P]. *)
Fixpoint dropWhileEnd (P : ascii → bool) (s : string) : string :=
  match s with
  | String c s' =>
      match dropWhileEnd P s' with
      | EmptyString => if P c then EmptyString else String c EmptyString
      | r => String c r
      end
  | EmptyString => EmptyString
  end.

Definition mem (c : ascii) (cutset : string) : bool :=
  negb (all (λ d, negb (Ascii.eqb c d)) cutset).

Definition isEmpty (s : string) : bool :=
  match s with EmptyString => true | _ => false end.

End Str.

(** ** The part of Go's [strings] package that the validator calls *)

Module strings.

(** [strings.Trim(s, cutset)] for a cutset of single-byte characters. *)
Definition Trim (s cutset : string) : string :=
  Str.dropWhileEnd (λ c, Str.mem c cutset)
    (Str.dropWhile (λ c, Str.mem c cutset) s).

(** [strings.HasPrefix(s, prefix)]. *)
Definition HasPrefix (s prefix : string) : bool := String.prefix prefix s.

(** [strings.Replace(s, old, new, -1)] for a non-empty [old]: every
    non-overlapping occurrence, left to right.  [skip] counts the bytes
    of an occurrence that are still to be passed over. *)
Fixpoint replaceFrom (skip : nat) (s old new : string) : string :=
  match s with
  | EmptyString => EmptyString
  | String c s' =>
      match skip with
      | S k => replaceFrom k s' old new
      | O =>
          if String.prefix old s
          then new +:+ replaceFrom (String.length old - 1) s' old new
          else String c (replaceFrom 0 s' old new)
      end
  end.

Definition ReplaceAll (s old new : string) : string := replaceFrom 0 s old new.

(** [strings.Join(elems, sep)]. *)
Definition Join (elems : list string) (sep : string) : string :=
  String.concat sep elems.

(** [strings.Contains(s, substr)]. *)
Fixpoint Contains (s substr : string) : bool :=
  String.prefix substr s ||
  match s with
  | String _ s' => Contains s' substr
  | EmptyString => false
  end.

(** [strings.ToLower] on the ASCII letters; other bytes are kept. *)
Definition lowerByte (c : ascii) : ascii :=
  let n := N_of_ascii c in
  if ((65 <=? n) && (n <=? 90))%N then ascii_of_N (n + 32) else c.

Fixpoint ToLower (s : string) : string :=
  match s with
  | String c s' => String (lowerByte c) (ToLower s')
  | EmptyString => EmptyString
  end.

(** [strings.Split(s, sep)] for a one-byte separator. *)
Fixpoint Split (s : string) (sep : ascii) : list string :=
  match s with
  | EmptyString => [EmptyString]
  | String c s' =>
      if Ascii.eqb c sep then EmptyString :: Split s' sep
      else
        match Split s' sep with
        | piece :: pieces => String c piece :: pieces
        | [] => [String c EmptyString]
        end
  end.

End strings.

(** ** Regular expressions with Go's leftmost-first semantics

    [rmatch r s caps] lists every way [r] can match a prefix of [s], in
    the priority order of a backtracking matcher (greedy operators try
    the longer alternative first).  Each result is the unread rest of the
    input with the submatches recorded so far; the match Go reports is the
    first one.

    The input is read byte by byte.  Go reads it rune by rune; for a
    pattern whose literals are ASCII and whose only class is a negated
    ASCII class, as tagRegexp is, the submatch texts are the same. *)

Module regexp.

Inductive Regexp : Type :=
| Lit (c : ascii)                 (* a literal byte *)
| NotOf (cs : list ascii)         (* [^...] *)
| EndText                         (* $ without the multi-line flag *)
| Cat (r1 r2 : Regexp)
| Alt (r1 r2 : Regexp)            (* r1|r2, r1 preferred *)
| Quest (r : Regexp)              (* r?, greedy *)
| Star (r : Regexp)               (* r*, greedy *)
| Plus (r : Regexp)               (* r+, greedy *)
| Cap (i : nat) (r : Regexp).     (* capturing group number i *)

Definition thread : Type := string * list string.

(** The text consumed between input [s] and its suffix [s']. *)
Definition consumed (s s' : string) : string :=
  Str.take (String.length s - String.length s') s.

Fixpoint star (step : string → list string → list thread)
    (fuel : nat) (s : string) (caps : list string) : list thread :=
  match fuel with
  | O => [(s, caps)]
  | S fuel' =>
      flat_map (λ t : thread,
          if Nat.ltb (String.length t.1) (String.length s)
          then star step fuel' t.1 t.2 else [])
        (step s caps)
      ++ [(s, caps)]
  end.

Fixpoint rmatch (r : Regexp) (s : string) (caps : list string) : list thread :=
  match r with
  | Lit c =>
      match s with
      | String c' s' => if Ascii.eqb c c' then [(s', caps)] else []
      | EmptyString => []
      end
  | NotOf cs =>
      match s with
      | String c' s' => if existsb (Ascii.eqb c') cs then [] else [(s', caps)]
      | EmptyString => []
      end
  | EndText =>
      match s with
      | EmptyString => [(s, caps)]
      | _ => []
      end
  | Cat r1 r2 => flat_map (λ t : thread, rmatch r2 t.1 t.2) (rmatch r1 s caps)
  | Alt r1 r2 => rmatch r1 s caps ++ rmatch r2 s caps
  | Quest r1 => rmatch r1 s caps ++ [(s, caps)]
  | Star r1 => star (rmatch r1) (String.length s) s caps
  | Plus r1 =>
      flat_map (λ t : thread, star (rmatch r1) (String.length t.1) t.1 t.2)
        (rmatch r1 s caps)
  | Cap i r1 =>
      map (λ t : thread, (t.1, <[i := consumed s t.1]> t.2)) (rmatch r1 s caps)
  end.

(** Number of capturing groups. *)
Fixpoint NumSubexp (r : Regexp) : nat :=
  match r with
  | Lit _ | NotOf _ | EndText => 0
  | Cat r1 r2 | Alt r1 r2 => NumSubexp r1 + NumSubexp r2
  | Quest r1 | Star r1 | Plus r1 => NumSubexp r1
  | Cap _ r1 => S (NumSubexp r1)
  end.

(** One unanchored search: the leftmost start at which [r] matches, and
    there the first match.  Returns the input at the match start, the
    input after the match, and the submatch strings (index 0 is the whole
    match). *)
Fixpoint search (r : Regexp) (s : string) : option (string * string * list string) :=
  match rmatch r s (replicate (S (NumSubexp r)) EmptyString) with
  | (rest, caps) :: _ => Some (s, rest, <[0 := consumed s rest]> caps)
  | [] =>
      match s with
      | String _ s' => search r s'
      | EmptyString => None
      end
  end.

(** The loop of [FindAllStringSubmatch(s, -1)].  [pos] is the input from
    the current search position on; positions are compared through the
    length of what is left.  An empty match directly after the previous
    match is dropped, and after an empty match the search moves one byte
    forward. *)
Fixpoint allMatches (fuel : nat) (r : Regexp) (pos : string)
    (prevMatchEnd : option nat) : list (list string) :=
  match fuel with
  | O => []
  | S fuel' =>
      match search r pos with
      | None => []
      | Some (start, rest, groups) =>
          if Nat.eqb (String.length rest) (String.length pos)
          then
            let accept :=
              negb (bool_decide (prevMatchEnd = Some (String.length start))) in
            let more :=
              match pos with
              | String _ pos' => allMatches fuel' r pos' (Some (String.length rest))
              | EmptyString => []
              end in
            if accept then groups :: more else more
          else groups :: allMatches fuel' r rest (Some (String.length rest))
      end
  end.

Definition FindAllStringSubmatch (r : Regexp) (s : string) : list (list string) :=
  allMatches (S (String.length s)) r s None.

End regexp.
Import regexp.

(** ** Errors *)

Set Warnings "-register-all".

(** The error values of the package.  The first eleven constructors are
    the package-level [TextErr] variables, one value each; [errors_New] is
    an error made by [errors.New]; [ErrorArray] is the slice type of that
    name. *)
Inductive error : Type :=
| ErrZeroValue | ErrMin | ErrMax | ErrLen | ErrRegexp | ErrUnsupported
| ErrBadParameter | ErrUnknownTag | ErrInvalid | ErrInvalidValue
| ErrInvalidTypedValue
| errors_New (msg : string)
| ErrorArray (errs : list error).

(** The [Error()] method. *)
Fixpoint Error (e : error) : string :=
  match e with
  | ErrZeroValue => "zero value"
  | ErrMin => "less than min"
  | ErrMax => "greater than max"
  | ErrLen => "invalid length"
  | ErrRegexp => "regular expression mismatch"
  | ErrUnsupported => "unsupported type"
  | ErrBadParameter => "bad parameter"
  | ErrUnknownTag => "unknown tag"
  | ErrInvalid => "invalid value"
  | ErrInvalidValue => "invalid value"
  | ErrInvalidTypedValue => "invalid value for provided type"
  | errors_New msg => msg
  | ErrorArray (e0 :: _) => Error e0
  | ErrorArray [] => ""
  end.

(** A Go call either returns or panics. *)
Inductive outcome (A : Type) : Type :=
| Ret (a : A)
| Panic.
Arguments Ret {A} a.
Arguments Panic {A}.

#[global] Instance outcome_ret : MRet outcome := @Ret.
#[global] Instance outcome_bind : MBind outcome := λ A B f x,
  match x with
  | Ret a => f a
  | Panic => Panic
  end.

(** ** Tags and the tag parser *)

(** [tagRegexp], the compiled pattern of the source, piece by piece. *)
Definition tagRegexp : Regexp :=
  Cat (Cap 1 (Plus (NotOf ["'"%char; "="%char])))   (* ([^'=]+)  *)
 (Cat (Lit "="%char)                                (* =         *)
 (Cat (Quest (Lit "'"%char))                        (* (?:'?)    *)
 (Cat (Cap 2 (Star (NotOf ["'"%char; "="%char])))   (* ([^'=]* ) *)
 (Cat (Quest (Lit "'"%char))                        (* (?:'?)    *)
      (Alt (Lit ","%char) EndText))))).             (* (?:,|$)   *)

Definition tagAttr : string := "attr".

Record tag : Type := mkTag { Name : string; Param : string }.

(** type tagList []tag *)
Abbreviation tagList := (list tag).

Fixpoint getByName (tl : tagList) (name : string) : tag * bool :=
  match tl with
  | [] => (mkTag "" "", false)
  | t :: tl' => if bool_decide (Name t = name) then (t, true) else getByName tl' name
  end.

(** The loop of [parseTags] over the submatch groups, [tags] being the
    list built so far. *)
Fixpoint parseGroups (groups : list (list string)) (tags : tagList)
    : tagList * option error :=
  match groups with
  | [] => (tags, None)
  | group :: rest =>
      let name := strings.Trim (nth 1 group "") " " in
      if bool_decide (name = "") then ([], Some ErrUnknownTag)
      else
        let param :=
          if Nat.ltb 2 (length group) then strings.Trim (nth 2 group "") " " else "" in
        parseGroups rest (tags ++ [mkTag name param])
  end.

Definition parseTags (t : string) : tagList * option error :=
  parseGroups (FindAllStringSubmatch tagRegexp t) [].

(** ** Go values as [reflect] shows them *)

Module reflect.

Inductive Kind : Type :=
| Invalid | Bool | Int | Int8 | Int16 | Int32 | Int64
| Uint | Uint8 | Uint16 | Uint32 | Uint64 | Uintptr
| Float32 | Float64 | Complex64 | Complex128
| Array | Chan | Func | Interface | Map | Ptr | Slice
| String | Struct | UnsafePointer.

#[global] Instance Kind_eq_dec : EqDecision Kind.
Proof. solve_decision. Defined.

Inductive IntKind : Type := int | int8 | int16 | int32 | int64.
Inductive UintKind : Type := uint | uint8 | uint16 | uint32 | uint64 | uintptr.
Inductive FloatKind : Type := float32 | float64.
Inductive SeqKind : Type := array | map_ | slice.
Inductive OtherKind : Type := complex64 | complex128 | chan | func | unsafePointer.

(** [reflect.StructField]: the declared name, the package path (empty
    exactly for an exported field) and the struct tag, kept as its
    key/value pairs in the order written. *)
Record StructField : Type := mkStructField {
  Name : string;
  PkgPath : string;
  Tag : list (string * string)
}.

(** [StructTag.Get(key)]: the value of the first pair with that key, the
    empty string when there is none. *)
Fixpoint Get (tag : list (string * string)) (key : string) : string :=
  match tag with
  | [] => ""
  | (k, v) :: tag' => if bool_decide (k = key) then v else Get tag' key
  end.

(** A [reflect.Value].  [typ] is the result of [Type().String()].  Of an
    array, map or slice only the length is kept, of a complex number,
    channel, function or unsafe pointer nothing: the validator observes no
    more.  [OfInterface] is a value of interface type, as a struct field or
    a pointer target can be; [None] is nil in [OfPtr] and [OfInterface]. *)
Inductive Value : Type :=
| Zero                                             (* ValueOf(nil) *)
| OfBool (typ : string) (b : bool)
| OfInt (typ : string) (k : IntKind) (i : Z)
| OfUint (typ : string) (k : UintKind) (u : Z)
| OfFloat (typ : string) (k : FloatKind) (x : PrimFloat.float)
| OfString (typ : string) (s : string)
| OfSeq (typ : string) (k : SeqKind) (len : nat)
| OfOther (typ : string) (k : OtherKind)
| OfPtr (typ : string) (elem : option Value)
| OfInterface (typ : string) (elem : option Value)
| OfStruct (typ : string) (fields : list (StructField * Value)).

Definition KindOf (v : Value) : Kind :=
  match v with
  | Zero => Invalid
  | OfBool _ _ => Bool
  | OfInt _ k _ =>
      match k with
      | int => Int | int8 => Int8 | int16 => Int16 | int32 => Int32 | int64 => Int64
      end
  | OfUint _ k _ =>
      match k with
      | uint => Uint | uint8 => Uint8 | uint16 => Uint16 | uint32 => Uint32
      | uint64 => Uint64 | uintptr => Uintptr
      end
  | OfFloat _ k _ => match k with float32 => Float32 | float64 => Float64 end
  | OfString _ _ => String
  | OfSeq _ k _ => match k with array => Array | map_ => Map | slice => Slice end
  | OfOther _ k =>
      match k with
      | complex64 => Complex64 | complex128 => Complex128 | chan => Chan
      | func => Func | unsafePointer => UnsafePointer
      end
  | OfPtr _ _ => Ptr
  | OfInterface _ _ => Interface
  | OfStruct _ _ => Struct
  end.

(** [v.Interface()] followed by [reflect.ValueOf]: the value an
    [interface{}] parameter receives.  An interface-typed value hands over
    what it holds. *)
Definition Interface_ (v : Value) : Value :=
  match v with
  | OfInterface _ (Some x) => x
  | OfInterface _ None => Zero
  | _ => v
  end.

(** The typed accessors panic on a value of another kind. *)
Definition Bool_ (v : Value) : outcome bool :=
  match v with OfBool _ b => Ret b | _ => Panic end.
Definition Int_ (v : Value) : outcome Z :=
  match v with OfInt _ _ i => Ret i | _ => Panic end.
Definition Uint_ (v : Value) : outcome Z :=
  match v with OfUint _ _ u => Ret u | _ => Panic end.
Definition Float_ (v : Value) : outcome PrimFloat.float :=
  match v with OfFloat _ _ x => Ret x | _ => Panic end.

Definition TypeString (v : Value) : string :=
  match v with
  | Zero => "invalid"
  | OfBool t _ | OfInt t _ _ | OfUint t _ _ | OfFloat t _ _ | OfString t _
  | OfSeq t _ _ | OfOther t _ | OfPtr t _ | OfInterface t _ | OfStruct t _ => t
  end.

(** [v.String()] never panics: for a value that is not a string it is the
    text "<T Value>". *)
Definition String_ (v : Value) : string :=
  match v with
  | OfString _ s => s
  | _ => "<" +:+ TypeString v +:+ " Value>"
  end.

(** [FieldByName] on the fields a struct declares; the model has no
    embedded structs, hence no promoted fields. *)
Fixpoint FieldByName (fields : list (StructField * Value)) (name : string)
    : option (StructField * Value) :=
  match fields with
  | [] => None
  | f :: fields' =>
      if bool_decide (Name f.1 = name) then Some f else FieldByName fields' name
  end.

(** The loop [for f.Kind() == Ptr && !f.IsNil() { f = f.Elem() }]. *)
Fixpoint deref (f : Value) : Value :=
  match f with
  | OfPtr _ (Some e) => deref e
  | _ => f
  end.

End reflect.

(** [unicode.IsUpper(rune(b))] for a byte [b]: the upper-case letters of
    Latin-1. *)
Definition IsUpperByte (b : ascii) : bool :=
  let n := N_of_ascii b in
  ((65 <=? n) && (n <=? 90) || (192 <=? n) && (n <=? 214)
   || (216 <=? n) && (n <=? 222))%N.

(** ** The validator *)

(** type ErrorMap map[string]error *)
Abbreviation ErrorMap := (gmap string error).

(** type ValidationFunc func(v interface{}, param string) error *)
Abbreviation ValidationFunc := (reflect.Value → string → outcome (option error)).

Record Validator : Type := mkValidator {
  tagName : string;
  validationFuncs : gmap string ValidationFunc
}.

(** [SetValidationFunc] changes the validator it is called on: the result
    pairs the returned error with the validator afterwards.  [vf = None] is
    the nil function.  This is the method on a validator whose map of
    functions is allocated, as NewValidator and copy build it; on the zero
    Validator, whose map is nil, the assignment panics: the method with the
    validator behind its pointer and the map behind its reference is
    [ptr.SetValidationFunc] below. *)
Definition SetValidationFunc (name : string) (vf : option ValidationFunc)
    (mv : Validator) : option error * Validator :=
  if bool_decide (name = "") then (Some (errors_New "name cannot be empty"), mv)
  else
    match vf with
    | None => (None, mkValidator (tagName mv) (delete name (validationFuncs mv)))
    | Some f => (None, mkValidator (tagName mv) (<[name := f]> (validationFuncs mv)))
    end.

Definition SetTag (tag : string) (mv : Validator) : Validator :=
  mkValidator tag (validationFuncs mv).

(** *** validateVar

    The result carries, next to what the function returns, the directives
    whose rule function was called, in call order. *)

Definition called {A : Type} (t : tag) (r : list tag * A) : list tag * A :=
  (t :: r.1, r.2).

Fixpoint validateVarLoop (mv : Validator) (v : reflect.Value)
    (tags : tagList) (rest : tagList) (errs : list error)
    : list tag * outcome (option error) :=
  match rest with
  | [] =>
      ([], Ret (match errs with [] => None | _ => Some (ErrorArray errs) end))
  | t :: rest' =>
      match validationFuncs mv !! Name t with
      | None =>
          if strings.HasPrefix (Name t) "msg_" || bool_decide (Name t = tagAttr)
          then validateVarLoop mv v tags rest' errs
          else ([], Ret (Some ErrUnknownTag))
      | Some fn =>
          match fn v (Param t) with
          | Panic => ([t], Panic)
          | Ret None => called t (validateVarLoop mv v tags rest' errs)
          | Ret (Some err) =>
              let err' :=
                match getByName tags ("msg_" +:+ Name t) with
                | (errTag, true) =>
                    errors_New (strings.ReplaceAll (Param errTag) "{param}" (Param t))
                | (_, false) => err
                end in
              called t (validateVarLoop mv v tags rest' (errs ++ [err']))
          end
      end
  end.

Definition validateVar (mv : Validator) (v : reflect.Value) (tags : tagList)
    : list tag * outcome (option error) :=
  validateVarLoop mv v tags tags [].

(** *** valid *)

Fixpoint valid (mv : Validator) (val : reflect.Value) (tags : tagList)
    : list tag * outcome (option error) :=
  match val with
  | reflect.OfPtr _ (Some e) =>
      (* mv.valid(v.Elem().Interface(), tags) *)
      match e with
      | reflect.OfInterface _ (Some x) => valid mv x tags
      | reflect.OfInterface _ None => validateVar mv reflect.Zero tags
      | _ => valid mv e tags
      end
  | reflect.OfStruct _ _ => ([], Ret (Some ErrUnsupported))
  | reflect.Zero => validateVar mv reflect.Zero tags
  | _ => validateVar mv val tags
  end.

(** [Valid]: a value against a raw tag string. *)
Definition Valid (mv : Validator) (val : reflect.Value) (tagsRaw : string)
    : list tag * outcome (option error) :=
  if bool_decide (tagsRaw = "-") then ([], Ret None)
  else
    match parseTags tagsRaw with
    | (_, Some err) => ([], Ret (Some err))
    | (tags, None) => valid mv val tags
    end.

(** *** Validate *)

Section Traversal.

(** The order in which a [range] over an [ErrorMap] visits the entries.
    Go leaves it unspecified. *)
Variable rangeOrder : ErrorMap → list (string * error).

(** [for j, k := range e { m[fname+"."+j] = k }] *)
Definition mergeNested (fname : string) (e m : ErrorMap) : ErrorMap :=
  foldl (λ (acc : ErrorMap) (jk : string * error),
           <[fname +:+ "." +:+ jk.1 := jk.2]> acc) m (rangeOrder e).

(** One turn of the loop over the fields, from the map [m] built so far.
    [nested] stands for [mv.Validate(f.Interface())] on the dereferenced
    field [f]; it is looked at in the nested-struct case only, where
    [f.Interface()] is the struct [f] itself.  [f.Interface()] panics on a
    field that is not exported. *)
Definition validateField (mv : Validator) (nested : outcome ErrorMap)
    (sf : reflect.StructField) (fv : reflect.Value) (m : ErrorMap)
    : outcome ErrorMap :=
  let f := reflect.deref fv in
  let fname := reflect.Name sf in
  let tag := reflect.Get (reflect.Tag sf) (tagName mv) in
  if bool_decide (tag = "-")
     || bool_decide (tag = "")
        && negb (bool_decide (reflect.KindOf f = reflect.Struct))
  then Ret m
  else
    match parseTags tag with
    | (_, Some err) => Ret (<[fname := err]> m)
    | (tags, None) =>
        let fname :=
          match getByName tags tagAttr with
          | (nameTag, true) => Param nameTag
          | (_, false) => fname
          end in
        match reflect.KindOf f with
        | reflect.Struct =>
            match fname with
            | EmptyString => Panic                    (* fname[0] *)
            | String c _ =>
                if negb (IsUpperByte c) then Ret m
                else if bool_decide (reflect.PkgPath sf = "")
                then e ← nested; Ret (mergeNested fname e m)
                else Panic
            end
        | _ =>
            if bool_decide (reflect.PkgPath sf = "")
            then
              err ← (valid mv (reflect.Interface_ f) tags).2;
              let errs :=
                match err with
                | Some (ErrorArray errors) => errors
                | Some err => [err]
                | None => []
                end in
              Ret (match errs with
                   | e0 :: _ => <[fname := e0]> m
                   | [] => m
                   end)
            else Panic
        end
    end.

Fixpoint Validate (mv : Validator) (v : reflect.Value) {struct v}
    : outcome ErrorMap :=
  match v with
  | reflect.OfPtr _ (Some e) =>
      (* mv.Validate(sv.Elem().Interface()) *)
      match e with
      | reflect.OfInterface _ (Some x) => Validate mv x
      | reflect.OfInterface _ None => Ret {[ "_summary" := ErrUnsupported ]}
      | _ => Validate mv e
      end
  | reflect.OfStruct _ fields =>
      (fix loop (fs : list (reflect.StructField * reflect.Value))
           (m : ErrorMap) {struct fs} : outcome ErrorMap :=
         match fs with
         | [] => Ret m
         | (sf, fv) :: fs' =>
             let nested :=
               (fix through (f : reflect.Value) : outcome ErrorMap :=
                  match f with
                  | reflect.OfPtr _ (Some e) => through e
                  | reflect.OfStruct _ _ => Validate mv f
                  | _ => Ret {[ "_summary" := ErrUnsupported ]}
                  end) fv in
             m' ← validateField mv nested sf fv m; loop fs' m'
         end) fields ∅
  | _ => Ret {[ "_summary" := ErrUnsupported ]}
  end.

(** The loop over the fields, with the recursive call as a parameter. *)
Fixpoint validateFields (mv : Validator)
    (rec : reflect.Value → outcome ErrorMap)
    (fs : list (reflect.StructField * reflect.Value)) (m : ErrorMap)
    : outcome ErrorMap :=
  match fs with
  | [] => Ret m
  | (sf, fv) :: fs' =>
      m' ← validateField mv (rec (reflect.deref fv)) sf fv m;
      validateFields mv rec fs' m'
  end.

End Traversal.

(** ** The built-in rules *)

Module builtin.

Section Builtin.

(** What the rules take from Go's standard library. *)
Variable ParseInt : string → option Z.      (* strconv.ParseInt(s, 0, 64) *)
Variable ParseUint : string → option Z.     (* strconv.ParseUint(s, 0, 64) *)
Variable ParseFloat : string → option PrimFloat.float.
                                            (* strconv.ParseFloat(s, 64) *)
Variable Compile : string → option (string → bool).
                            (* regexp.Compile, then MatchString of the result *)
Variable ParseRFC3339 : string → bool.      (* time.Parse(time.RFC3339, s) succeeds *)
Variable MatchBase64 : string → bool.       (* regexpBase64.MatchString *)

Definition asInt (param : string) : Z + error :=
  match ParseInt param with Some i => inl i | None => inr ErrBadParameter end.
Definition asUint (param : string) : Z + error :=
  match ParseUint param with Some i => inl i | None => inr ErrBadParameter end.
Definition asFloat (param : string) : PrimFloat.float + error :=
  match ParseFloat param with Some x => inl x | None => inr ErrBadParameter end.

Definition verdict (ok : bool) (e : error) : outcome (option error) :=
  Ret (if ok then None else Some e).

Definition typeIs (typ : string) (names : list string) : bool :=
  existsb (String.eqb typ) names.

Definition notZero (v : reflect.Value) (param : string) : outcome (option error) :=
  match v with
  | reflect.OfString _ s => verdict (negb (Str.isEmpty s)) ErrZeroValue
  | reflect.OfPtr _ e | reflect.OfInterface _ e =>
      verdict (bool_decide (is_Some e)) ErrZeroValue
  | reflect.OfSeq _ _ n => verdict (negb (Nat.eqb n 0)) ErrZeroValue
  | reflect.OfInt _ _ i => verdict (negb (Z.eqb i 0)) ErrZeroValue
  | reflect.OfUint _ _ u => verdict (negb (Z.eqb u 0)) ErrZeroValue
  | reflect.OfFloat _ _ x => verdict (negb (PrimFloat.eqb x PrimFloat.zero)) ErrZeroValue
  | reflect.OfBool _ b => verdict b ErrZeroValue
  | reflect.OfStruct typ fields =>
      if strings.Contains (strings.ToLower typ) "null" then
        match reflect.FieldByName fields "Valid" with
        | Some fvalid =>
            isValid ← reflect.Bool_ fvalid.2;
            if isValid : bool then
              if typeIs typ ["sql.NullInt64"; "null.Int"] then
                match reflect.FieldByName fields "Int64" with
                | Some f => i ← reflect.Int_ f.2; verdict (negb (Z.eqb i 0)) ErrZeroValue
                | None => verdict false ErrZeroValue
                end
              else if typeIs typ ["sql.NullString"; "null.String"] then
                match reflect.FieldByName fields "String" with
                | Some f =>
                    verdict (negb (Str.isEmpty (reflect.String_ f.2))) ErrZeroValue
                | None => verdict false ErrZeroValue
                end
              else if typeIs typ ["sql.NullFloat64"; "null.Float"] then
                match reflect.FieldByName fields "Float64" with
                | Some f =>
                    x ← reflect.Float_ f.2;
                    verdict (negb (PrimFloat.eqb x PrimFloat.zero)) ErrZeroValue
                | None => verdict false ErrZeroValue
                end
              else Ret (Some ErrUnsupported)
            else verdict false ErrZeroValue
        | None => verdict false ErrZeroValue
        end
      else Ret (Some ErrUnsupported)
  | reflect.Zero => verdict false ErrZeroValue
  | reflect.OfOther _ _ => Ret (Some ErrUnsupported)
  end.

(** [length], [min] and [max] differ in the comparison and the error
    only: [cmpZ] and [cmpF] compare the value (on the left) with the
    parameter. *)
Definition compareRule (cmpZ : Z → Z → bool)
    (cmpF : PrimFloat.float → PrimFloat.float → bool) (e : error)
    (v : reflect.Value) (param : string) : outcome (option error) :=
  match v with
  | reflect.OfString _ s =>
      match asInt param with
      | inr _ => Ret (Some ErrBadParameter)
      | inl p => verdict (cmpZ (Z.of_nat (String.length s)) p) e
      end
  | reflect.OfSeq _ _ n =>
      match asInt param with
      | inr _ => Ret (Some ErrBadParameter)
      | inl p => verdict (cmpZ (Z.of_nat n) p) e
      end
  | reflect.OfInt _ _ i =>
      match asInt param with
      | inr _ => Ret (Some ErrBadParameter)
      | inl p => verdict (cmpZ i p) e
      end
  | reflect.OfUint _ _ u =>
      match asUint param with
      | inr _ => Ret (Some ErrBadParameter)
      | inl p => verdict (cmpZ u p) e
      end
  | reflect.OfFloat _ _ x =>
      match asFloat param with
      | inr _ => Ret (Some ErrBadParameter)
      | inl p => verdict (cmpF x p) e
      end
  | _ => Ret (Some ErrUnsupported)
  end.

(** valid = (value == p) *)
Definition length : ValidationFunc :=
  compareRule Z.eqb PrimFloat.eqb ErrLen.
(** invalid = (value < p) *)
Definition min : ValidationFunc :=
  compareRule (λ x p, negb (Z.ltb x p)) (λ x p, negb (PrimFloat.ltb x p)) ErrMin.
(** invalid = (value > p) *)
Definition max : ValidationFunc :=
  compareRule (λ x p, negb (Z.ltb p x)) (λ x p, negb (PrimFloat.ltb p x)) ErrMax.

Definition regex (v : reflect.Value) (param : string) : outcome (option error) :=
  match v with
  | reflect.OfString typ s =>
      if bool_decide (typ = "string")         (* s, ok := v.(string) *)
      then
        match Compile param with
        | None => Ret (Some ErrBadParameter)
        | Some matchString => verdict (matchString s) ErrRegexp
        end
      else Ret (Some ErrUnsupported)
  | _ => Ret (Some ErrUnsupported)
  end.

(** The loops of [in] over the parameters stop at the first one that does
    not convert. *)
Fixpoint convertAll {A : Type} (conv : string → A + error) (params : list string)
    : option (list A) :=
  match params with
  | [] => Some []
  | p :: params' =>
      match conv p with
      | inr _ => None
      | inl a => cons a <$> convertAll conv params'
      end
  end.

Definition in_ (v : reflect.Value) (param : string) : outcome (option error) :=
  let params := strings.Split param ","%char in
  match v with
  | reflect.OfInt _ _ _ | reflect.OfUint _ _ _ =>
      match convertAll asInt params with
      | None => Ret (Some ErrBadParameter)
      | Some expectedValues =>
          actual ← reflect.Int_ v;
          verdict (existsb (Z.eqb actual) expectedValues) ErrInvalidValue
      end
  | reflect.OfFloat _ _ x =>
      match convertAll asFloat params with
      | None => Ret (Some ErrBadParameter)
      | Some expectedValues =>
          verdict (existsb (PrimFloat.eqb x) expectedValues) ErrInvalidValue
      end
  | reflect.OfString _ s =>
      verdict (existsb (String.eqb s) params) ErrInvalidValue
  | _ => Ret (Some ErrBadParameter)
  end.

Definition typeValid (v : reflect.Value) (param : string) : outcome (option error) :=
  let str := reflect.String_ v in
  if bool_decide (param = "timestamp")
  then verdict (ParseRFC3339 str) ErrInvalidTypedValue
  else if bool_decide (param = "base64")
  then verdict (MatchBase64 str) ErrInvalidTypedValue
  else Ret (Some ErrBadParameter).

Definition NewValidator : Validator :=
  mkValidator "validate"
    (list_to_map
       [ ("notempty", notZero); ("empty", notZero); ("len", length);
         ("min", min); ("max", max); ("regexp", regex); ("in", in_);
         ("type", typeValid) ]).

End Builtin.

End builtin.

(** ** Statements about the parser: re-joining and the tag grammar *)

(** Re-joining parsed directives: [name=param] pieces separated by commas,
    a parameter that contains a comma put between single quotes. *)
Definition hasComma (s : string) : bool :=
  negb (Str.all (λ c, negb (Ascii.eqb c ","%char)) s).

Definition quoteParam (p : string) : string :=
  if hasComma p then "'" +:+ p +:+ "'" else p.

Definition directiveText (t : tag) : string :=
  Name t +:+ "=" +:+ quoteParam (Param t).

Definition rejoin (tags : tagList) : string :=
  strings.Join (map directiveText tags) ",".

(** The tag grammar as the specification words it: a name is one or more
    characters other than the quote and the equals sign; a value is a bare
    token that runs up to the next comma, or a quoted token that may hold
    commas; directives are separated by commas. *)
Definition nameChar (c : ascii) : bool :=
  negb (Ascii.eqb c "'"%char) && negb (Ascii.eqb c "="%char).

Definition bareChar (c : ascii) : bool :=
  nameChar c && negb (Ascii.eqb c ","%char).

Inductive directive_text : string → Prop :=
| bare_directive (n v : string) :
    n ≠ "" → Str.all nameChar n = true → Str.all bareChar v = true →
    directive_text (n +:+ "=" +:+ v)
| quoted_directive (n v : string) :
    n ≠ "" → Str.all nameChar n = true → Str.all nameChar v = true →
    directive_text (n +:+ "='" +:+ v +:+ "'").

Inductive well_formed : string → Prop :=
| wf_last (d : string) : directive_text d → well_formed d
| wf_more (d s : string) :
    directive_text d → well_formed s → well_formed (d +:+ "," +:+ s).

(** The input holds no equals sign. *)
Definition noEquals (s : string) : bool :=
  Str.all (λ c, negb (Ascii.eqb c "="%char)) s.

(** A string is trimmed when neither its first nor its last byte is in the
    cutset. *)
Definition trimmed (P : ascii → bool) (s : string) : Prop :=
  Str.dropWhile P s = s ∧ Str.dropWhileEnd P s = s.

(** What parseTags guarantees of a directive, and what re-joining needs:
    a non-empty, trimmed name without quote, equals sign or comma, and a
    trimmed parameter without quote or equals sign. *)
Definition cleanTag (t : tag) : Prop :=
  Name t ≠ "" ∧ Str.all bareChar (Name t) = true
  ∧ trimmed (λ c, Str.mem c " ") (Name t)
  ∧ Str.all nameChar (Param t) = true
  ∧ trimmed (λ c, Str.mem c " ") (Param t).

(** ** Statements about the value validator and the traversal *)

(** A directive name is reserved when it is [attr] or starts with [msg_]. *)
Definition reserved (name : string) : bool :=
  strings.HasPrefix name "msg_" || bool_decide (name = tagAttr).

(** The error a failing directive [t] contributes: the rule's error, or the
    text of the [msg_] directive of that name when the list has one. *)
Definition reported (tags : tagList) (t : tag) (err : error) : error :=
  match getByName tags ("msg_" +:+ Name t) with
  | (errTag, true) =>
      errors_New (strings.ReplaceAll (Param errTag) "{param}" (Param t))
  | (_, false) => err
  end.

(** The failures of all the directives of [rest] whose rule is registered,
    in order. *)
Fixpoint failures (mv : Validator) (v : reflect.Value) (tags rest : tagList)
    : list error :=
  match rest with
  | [] => []
  | t :: rest' =>
      match validationFuncs mv !! Name t with
      | Some fn =>
          match fn v (Param t) with
          | Ret (Some err) => reported tags t err :: failures mv v tags rest'
          | _ => failures mv v tags rest'
          end
      | None => failures mv v tags rest'
      end
  end.

(** The directives of a list whose name is registered. *)
Definition registered (mv : Validator) (tags : tagList) : tagList :=
  filter (λ t, is_Some (validationFuncs mv !! Name t)) tags.

(** What validateVar returns for the accumulated errors. *)
Definition errorArray (errs : list error) : option error :=
  match errs with
  | [] => None
  | _ => Some (ErrorArray errs)
  end.

(** A directive the loop can pass: its name is registered or reserved. *)
Definition known (mv : Validator) (t : tag) : Prop :=
  is_Some (validationFuncs mv !! Name t) ∨ reserved (Name t) = true.

(** No registered rule panics on [v] with a parameter of [rest]. *)
Definition returns (mv : Validator) (v : reflect.Value) (rest : tagList) : Prop :=
  ∀ t fn, t ∈ rest → validationFuncs mv !! Name t = Some fn → fn v (Param t) ≠ Panic.

(** A value that [valid] hands to [validateVar]: neither a non-nil pointer
    nor a struct. *)
Definition scalarValue (val : reflect.Value) : bool :=
  match val with
  | reflect.OfPtr _ (Some _) | reflect.OfStruct _ _ => false
  | _ => true
  end.

(** The name a field is reported under. *)
Definition displayName (sf : reflect.StructField) (tags : tagList) : string :=
  match getByName tags tagAttr with
  | (nameTag, true) => Param nameTag
  | (_, false) => reflect.Name sf
  end.

(** [errs[0]] in Validate, for what [valid] returned: the first element of
    an ErrorArray, any other error itself. *)
Definition firstError (err : option error) : option error :=
  match err with
  | Some (ErrorArray errors) => head errors
  | Some e => Some e
  | None => None
  end.

(** [m[fname] = errs[0]] when there is one. *)
Definition record (fname : string) (e : option error) (m : ErrorMap) : ErrorMap :=
  match e with
  | Some e0 => <[fname := e0]> m
  | None => m
  end.

(** ** Statements about the built-in rules *)

(** The kinds for which a built-in rule, by the name it is registered
    under, has a case of its own.  [notempty] and [empty] take a struct
    whose type name contains "null" into a case of their own; [regexp]
    accepts the type [string] alone; [type] reads every value through its
    string form. *)
Definition handles (name : string) (v : reflect.Value) : bool :=
  if bool_decide (name = "notempty") || bool_decide (name = "empty") then
    match v with
    | reflect.OfOther _ _ => false
    | reflect.OfStruct typ _ => strings.Contains (strings.ToLower typ) "null"
    | _ => true
    end
  else if bool_decide (name = "len") || bool_decide (name = "min")
          || bool_decide (name = "max") then
    match v with
    | reflect.OfString _ _ | reflect.OfSeq _ _ _ | reflect.OfInt _ _ _
    | reflect.OfUint _ _ _ | reflect.OfFloat _ _ _ => true
    | _ => false
    end
  else if bool_decide (name = "regexp") then
    match v with
    | reflect.OfString typ _ => bool_decide (typ = "string")
    | _ => false
    end
  else if bool_decide (name = "in") then
    match v with
    | reflect.OfInt _ _ _ | reflect.OfUint _ _ _ | reflect.OfFloat _ _ _
    | reflect.OfString _ _ => true
    | _ => false
    end
  else true.

(** The error a built-in rule answers a kind it has no case for with. *)
Definition rejection (name : string) : error :=
  if bool_decide (name = "in") then ErrBadParameter else ErrUnsupported.

(** ** The pieces of tagRegexp *)

(** The class [^'=]. *)
Definition N : Regexp := NotOf ["'"%char; "="%char].

(** (?:'?)(?:,|$), what follows the second group. *)
Definition R5 : Regexp := Alt (Lit ","%char) EndText.
Definition R4 : Regexp := Cat (Quest (Lit "'"%char)) R5.
(** From the second group on. *)
Definition R3 : Regexp := Cat (Cap 2 (Star N)) R4.
(** From the optional opening quote on. *)
Definition R2 : Regexp := Cat (Quest (Lit "'"%char)) R3.
(** From the equals sign on. *)
Definition R1 : Regexp := Cat (Lit "="%char) R2.

(** A greedy run of [^'=] followed by the continuation [K]. *)
Definition gmatch (K : thread → list thread) (y : string) (caps : list string)
    : list thread :=
  flat_map K (star (rmatch N) (String.length y) y caps).

(** The input does not go on with a byte of the class [^'=]. *)
Definition stops (y : string) : Prop :=
  match y with
  | String c _ => nameChar c = false
  | EmptyString => True
  end.

(** The submatch groups a directive is read from. *)
Definition groupOf (t : tag) (group : list string) : Prop :=
  length group = 3 ∧ nth 1 group "" = Name t ∧ nth 2 group "" = Param t.

(** What the groups of a match of tagRegexp look like. *)
Definition tagGroups (group : list string) : Prop :=
  ∃ whole n p, group = [whole; n; p] ∧ n ≠ ""
               ∧ Str.all nameChar n = true ∧ Str.all nameChar p = true.

(** ** Sample inputs *)

(** A registry that holds a rule under the name [attr]. *)
Definition alwaysInvalid : ValidationFunc := λ _ _, Ret (Some ErrInvalid).

Definition attrRegistry : Validator :=
  mkValidator "validate" {[ "attr" := alwaysInvalid ]}.

(** Rules that always fail, a registry of them, and a field tagged as in
    the test of the package. *)
Definition alwaysMin : ValidationFunc := λ _ _, Ret (Some ErrMin).
Definition alwaysMax : ValidationFunc := λ _ _, Ret (Some ErrMax).

Definition sampleRegistry : Validator :=
  mkValidator "validate" (<["min" := alwaysMin]> (<["max" := alwaysMax]> ∅)).

Definition sampleField (name tag : string) : reflect.StructField :=
  reflect.mkStructField name "" [("validate", tag)].

Definition sampleInt (i : Z) : reflect.Value := reflect.OfInt "int" reflect.int i.

(** A record with a nested record that has two failing fields. *)
Definition nestedSample : reflect.Value :=
  reflect.OfStruct "Person"
    [ (sampleField "Address" "",
       reflect.OfStruct "Address"
         [ (sampleField "Zip" "min=3", sampleInt 1);
           (sampleField "City" "max=0", sampleInt 1) ]) ].

(** A struct whose type name contains "null" and whose field [Valid] is
    not a boolean. *)
Definition nullFlag : reflect.Value :=
  reflect.OfStruct "main.NullFlag"
    [ (reflect.mkStructField "Valid" "" [], sampleInt 1) ].

(** An address with an empty zip code, as a field [Address] of a record,
    the field carrying the given tag; [pkgPath] is empty for an exported
    field.  The zip code is tagged as the package's test tags a field that
    must not be its zero value. *)
Definition addressRecord (fieldName pkgPath tag : string) : reflect.Value :=
  reflect.OfStruct "main.Person"
    [ (reflect.mkStructField fieldName pkgPath [("validate", tag)],
       reflect.OfStruct "main.Address"
         [ (sampleField "Zip" "empty=''", reflect.OfString "string" "") ]) ].


(** ** Further parts of the package *)

(** *** What the parser returns *)

(** A directive as parseTags builds it: a non-empty name, name and
    parameter free of the quote and the equals sign and with no blank at
    either end. *)
Definition parsedTag (t : tag) : Prop :=
  Name t ≠ "" ∧ Str.all nameChar (Name t) = true
  ∧ trimmed (λ c, Str.mem c " ") (Name t)
  ∧ Str.all nameChar (Param t) = true
  ∧ trimmed (λ c, Str.mem c " ") (Param t).

(** The input holds no opening brace, so no placeholder starts in it. *)
Definition noBrace (s : string) : bool :=
  Str.all (λ c, negb (Ascii.eqb c "{"%char)) s.

(** *** Pointers *)

(** The value [Validate] and [valid] end up with after their recursion
    through non-nil pointers, each step being [Elem().Interface()]. *)
Fixpoint pointee (v : reflect.Value) : reflect.Value :=
  match v with
  | reflect.OfPtr _ (Some e) =>
      match e with
      | reflect.OfInterface _ (Some x) => pointee x
      | reflect.OfInterface _ None => reflect.Zero
      | _ => pointee e
      end
  | _ => v
  end.

(** [tag == "-" || (tag == "" && f.Kind() != reflect.Struct)], the test
    on which the loop of Validate passes over a field. *)
Definition skipped (mv : Validator) (f : reflect.StructField * reflect.Value) : bool :=
  let tag := reflect.Get (reflect.Tag f.1) (tagName mv) in
  bool_decide (tag = "-")
  || bool_decide (tag = "")
     && negb (bool_decide (reflect.KindOf (reflect.deref f.2) = reflect.Struct)).

(** *** The rule kept beside the registered ones *)

(** [notEmpty] of the rules file; it is not in the registry, the package's
    test calls it directly.  A struct whose type name contains "null" and
    that has no field [Valid] leaves [valid] at true. *)
Definition notEmpty (v : reflect.Value) (param : string) : outcome (option error) :=
  match v with
  | reflect.OfString _ s => builtin.verdict (negb (Str.isEmpty s)) ErrZeroValue
  | reflect.OfPtr _ e | reflect.OfInterface _ e =>
      builtin.verdict (bool_decide (is_Some e)) ErrZeroValue
  | reflect.OfSeq _ _ n => builtin.verdict (negb (Nat.eqb n 0)) ErrZeroValue
  | reflect.OfStruct typ fields =>
      if strings.Contains (strings.ToLower typ) "null" then
        match reflect.FieldByName fields "Valid" with
        | Some fvalid =>
            isValid ← reflect.Bool_ fvalid.2;
            builtin.verdict isValid ErrZeroValue
        | None => builtin.verdict true ErrZeroValue
        end
      else Ret (Some ErrUnsupported)
  | reflect.Zero => builtin.verdict false ErrZeroValue
  | _ => Ret (Some ErrUnsupported)
  end.

(** The value is a floating-point number. *)
Definition isFloat (v : reflect.Value) : bool :=
  match v with reflect.OfFloat _ _ _ => true | _ => false end.

(** The parameter conversion [in] applies to the pieces of its parameter
    fails on [piece], for the kind of [v]: asInt for the integers, signed
    and unsigned, asFloat for the floating-point numbers. *)
Definition unconvertible (ParseInt : string → option Z)
    (ParseFloat : string → option PrimFloat.float)
    (v : reflect.Value) (piece : string) : Prop :=
  match v with
  | reflect.OfInt _ _ _ | reflect.OfUint _ _ _ => ParseInt piece = None
  | reflect.OfFloat _ _ _ => ParseFloat piece = None
  | _ => False
  end.

(** *** Validators behind pointers

    A [*Validator] is an address; the struct at the address holds the tag
    name and a reference to the map of validation functions, which several
    structs may share. *)

Module ptr.

Record Heap : Type := mkHeap {
  structs : gmap nat (string * nat);
  maps : gmap nat (gmap string ValidationFunc)
}.

(** The validator seen through the pointer [p], when [p] is not nil and
    its map is allocated. *)
Definition load (h : Heap) (p : nat) : option Validator :=
  '(tag, r) ← structs h !! p;
  m ← maps h !! r;
  Some (mkValidator tag m).

(** mv.tagName = tag *)
Definition SetTag (p : nat) (tag : string) (h : Heap) : outcome Heap :=
  match structs h !! p with
  | Some (_, r) => Ret (mkHeap (<[p := (tag, r)]> (structs h)) (maps h))
  | None => Panic
  end.

(** &Validator{tagName: mv.tagName, validationFuncs: mv.validationFuncs}:
    a new struct that refers to the map of the old one. *)
Definition copy (p : nat) (h : Heap) : outcome (nat * Heap) :=
  match structs h !! p with
  | Some (tag, r) =>
      let p' := fresh (dom (structs h)) in
      Ret (p', mkHeap (<[p' := (tag, r)]> (structs h)) (maps h))
  | None => Panic
  end.

Definition WithTag (p : nat) (tag : string) (h : Heap) : outcome (nat * Heap) :=
  '(v, h1) ← copy p h;
  h2 ← SetTag v tag h1;
  Ret (v, h2).

(** [delete] on a nil map does nothing; an assignment to it panics. *)
Definition SetValidationFunc (p : nat) (name : string)
    (vf : option ValidationFunc) (h : Heap) : outcome (option error * Heap) :=
  if bool_decide (name = "") then Ret (Some (errors_New "name cannot be empty"), h)
  else
    match structs h !! p with
    | None => Panic
    | Some (_, r) =>
        match vf with
        | None => Ret (None, mkHeap (structs h) (alter (delete name) r (maps h)))
        | Some f =>
            match maps h !! r with
            | Some m => Ret (None, mkHeap (structs h) (<[r := <[name := f]> m]> (maps h)))
            | None => Panic
            end
        end
    end.

End ptr.

(** *** The methods of ErrorMap

    A Go [ErrorMap] may hold nil under a key; [None] is that nil.  [visit]
    is the order in which the range of the method visits the entries. *)

Module errorMap.

(** [for k, err := range err { if err != nil { return ... } }] *)
Fixpoint firstNonNil (visit : list (string * option error))
    : option (string * error) :=
  match visit with
  | [] => None
  | (k, Some e) :: _ => Some (k, e)
  | (_, None) :: visit' => firstNonNil visit'
  end.

(** fmt.Sprintf("%s: %s", k, err.Error()) *)
Definition text (ke : string * error) : string := ke.1 +:+ ": " +:+ Error ke.2.

Definition IsEmpty (m : gmap string (option error)) : bool :=
  bool_decide (size m = 0).

Definition Error (visit : list (string * option error)) : option error :=
  errors_New ∘ text <$> firstNonNil visit.

Definition String (visit : list (string * option error)) : string :=
  default "" (text <$> firstNonNil visit).

End errorMap.

(** The map Validate returns, as a Go [ErrorMap]: no entry is nil. *)
Definition asGoMap (m : ErrorMap) : gmap string (option error) := Some <$> m.

(** *** Further sample inputs *)

(** [null.Int{}] and [null.IntFrom(42)] of the package's test, the fields
    of the embedded [sql.NullInt64] written out. *)
Definition nullInt (i : Z) (isValid : bool) : reflect.Value :=
  reflect.OfStruct "null.Int"
    [ (reflect.mkStructField "Int64" "" [], reflect.OfInt "int64" reflect.int64 i);
      (reflect.mkStructField "Valid" "" [], reflect.OfBool "bool" isValid) ].

(** A record whose two fields carry no rule: one is tagged with the dash,
    the other is not exported and has no tag. *)
Definition untaggedRecord : reflect.Value :=
  reflect.OfStruct "main.Plain"
    [ (sampleField "Skipped" "-", reflect.OfStruct "main.Inner" []);
      (reflect.mkStructField "hidden" "main" [], sampleInt 0) ].

(** *** The value a field is validated as *)

(** What validateVar receives for the field value [fv]: the field behind
    its pointers, as the loop of Validate leaves it, handed over with
    [f.Interface()], and then followed through the pointers valid itself
    looks through. *)
Definition validated (fv : reflect.Value) : reflect.Value :=
  pointee (reflect.Interface_ (reflect.deref fv)).

(** A record whose one field is a struct and carries a rule. *)
Definition structFieldRecord (tag : string) : reflect.Value :=
  reflect.OfStruct "main.Outer"
    [ (sampleField "Inner" tag, reflect.OfStruct "main.Inner" []) ].

(** A record of a field that is not exported and carries a rule, and an
    exported field after it. *)
Definition hiddenFieldRecord (tag : string) : reflect.Value :=
  reflect.OfStruct "main.T"
    [ (reflect.mkStructField "a" "main" [("validate", tag)], sampleInt 1);
      (sampleField "B" "min=3", sampleInt 1) ].

(** A record of a field of interface type that holds a struct. *)
Definition interfaceFieldRecord (tag : string) : reflect.Value :=
  reflect.OfStruct "main.T"
    [ (sampleField "Any" tag,
       reflect.OfInterface "interface {}" (Some (reflect.OfStruct "main.Inner" []))) ].

(** struct{ N uint `validate:"in=1"` }{N: 1} *)
Definition unsignedRecord : reflect.Value :=
  reflect.OfStruct "main.T"
    [ (sampleField "N" "in=1", reflect.OfUint "uint" reflect.uint 1) ].

(** * Properties *)

(** ** Byte strings *)

Lemma app_cons (c : ascii) (s t : string) : String c s +:+ t = String c (s +:+ t).
Proof. reflexivity. Qed.

Lemma app_empty_l (s : string) : "" +:+ s = s.
Proof. reflexivity. Qed.

Lemma app_empty_r (s : string) : s +:+ "" = s.
Proof. induction s as [|c s IH]; [done|]. by rewrite app_cons, IH. Qed.

Lemma app_assoc_str (s1 s2 s3 : string) :
  (s1 +:+ s2) +:+ s3 = s1 +:+ (s2 +:+ s3).
Proof. induction s1 as [|c s1 IH]; [done|]. by rewrite !app_cons, IH. Qed.

Lemma length_app_str (s t : string) :
  String.length (s +:+ t) = String.length s + String.length t.
Proof. induction s as [|c s IH]; [done|]. rewrite app_cons. simpl. by rewrite IH. Qed.

Lemma all_app (P : ascii → bool) (s t : string) :
  Str.all P (s +:+ t) = Str.all P s && Str.all P t.
Proof.
  induction s as [|c s IH]; [done|].
  rewrite app_cons. simpl. rewrite IH. by rewrite andb_assoc.
Qed.

Lemma all_impl (P Q : ascii → bool) (s : string) :
  (∀ c, P c = true → Q c = true) → Str.all P s = true → Str.all Q s = true.
Proof.
  intros HPQ. induction s as [|c s IH]; [done|]. simpl.
  intros [Hc Hs]%andb_true_iff. rewrite (HPQ _ Hc). by apply IH.
Qed.

Lemma take_app_length (w s : string) :
  Str.take (String.length (w +:+ s) - String.length s) (w +:+ s) = w.
Proof.
  rewrite length_app_str.
  replace (String.length w + String.length s - String.length s)
    with (String.length w) by lia.
  induction w as [|c w IH]; simpl.
  - by destruct s.
  - by rewrite IH.
Qed.

Lemma consumed_app (w s : string) : consumed (w +:+ s) s = w.
Proof. apply take_app_length. Qed.

(** *** Trim *)

Lemma dropWhile_all (P Q : ascii → bool) (s : string) :
  Str.all Q s = true → Str.all Q (Str.dropWhile P s) = true.
Proof.
  induction s as [|c s IH]; [done|]. simpl.
  intros [Hc Hs]%andb_true_iff. destruct (P c); [by apply IH|].
  simpl. by rewrite Hc, Hs.
Qed.

Lemma dropWhileEnd_all (P Q : ascii → bool) (s : string) :
  Str.all Q s = true → Str.all Q (Str.dropWhileEnd P s) = true.
Proof.
  induction s as [|c s IH]; [done|]. simpl.
  intros [Hc Hs]%andb_true_iff. specialize (IH Hs).
  destruct (Str.dropWhileEnd P s) as [|d r].
  - destruct (P c); [done|]. simpl. by rewrite Hc.
  - simpl in *. by rewrite Hc, IH.
Qed.

Lemma Trim_all (Q : ascii → bool) (s cutset : string) :
  Str.all Q s = true → Str.all Q (strings.Trim s cutset) = true.
Proof. intros H. unfold strings.Trim. by apply dropWhileEnd_all, dropWhile_all. Qed.


Lemma dropWhile_idem (P : ascii → bool) (s : string) :
  Str.dropWhile P (Str.dropWhile P s) = Str.dropWhile P s.
Proof.
  induction s as [|c s IH]; [done|]. simpl.
  destruct (P c) eqn:Hc; [done|]. simpl. by rewrite Hc.
Qed.

Lemma dropWhileEnd_idem (P : ascii → bool) (s : string) :
  Str.dropWhileEnd P (Str.dropWhileEnd P s) = Str.dropWhileEnd P s.
Proof.
  induction s as [|c s IH]; [done|]. simpl.
  destruct (Str.dropWhileEnd P s) as [|d r] eqn:Hr.
  - destruct (P c) eqn:Hc; [done|]. simpl. by rewrite Hc.
  - change (Str.dropWhileEnd P (String c (String d r))) with
      (match Str.dropWhileEnd P (String d r) with
       | EmptyString => if P c then EmptyString else String c EmptyString
       | r' => String c r'
       end).
    by rewrite IH.
Qed.

Lemma dropWhile_dropWhileEnd (P : ascii → bool) (s : string) :
  Str.dropWhile P s = s →
  Str.dropWhile P (Str.dropWhileEnd P s) = Str.dropWhileEnd P s.
Proof.
  destruct s as [|c s]; [done|]. simpl.
  destruct (P c) eqn:Hc.
  - intros H. exfalso.
    assert (String.length (Str.dropWhile P s) ≤ String.length s) as Hle.
    { clear. induction s as [|d s IH]; simpl; [lia|]. destruct (P d); simpl; lia. }
    rewrite H in Hle. simpl in Hle. lia.
  - intros _. destruct (Str.dropWhileEnd P s); simpl; by rewrite Hc.
Qed.

Lemma Trim_trimmed (s cutset : string) :
  trimmed (λ c, Str.mem c cutset) (strings.Trim s cutset).
Proof.
  unfold trimmed, strings.Trim. split.
  - apply dropWhile_dropWhileEnd, dropWhile_idem.
  - apply dropWhileEnd_idem.
Qed.

Lemma trimmed_Trim (s cutset : string) :
  trimmed (λ c, Str.mem c cutset) s → strings.Trim s cutset = s.
Proof. intros [H1 H2]. unfold strings.Trim. by rewrite H1, H2. Qed.

Lemma Trim_idem (s cutset : string) :
  strings.Trim (strings.Trim s cutset) cutset = strings.Trim s cutset.
Proof. apply trimmed_Trim, Trim_trimmed. Qed.

(** ** The rule registry *)

(** C8. Registering under the empty name fails with an error about the
    bad argument and leaves the validator, hence its registry mapping, as it
    was, whatever the function argument is, nil included. *)
Theorem SetValidationFunc_empty_name (vf : option ValidationFunc) (mv : Validator) :
  (SetValidationFunc "" vf mv).1 = Some (errors_New "name cannot be empty")
  ∧ (SetValidationFunc "" vf mv).2 = mv
  ∧ validationFuncs (SetValidationFunc "" vf mv).2 = validationFuncs mv.
Proof. by unfold SetValidationFunc; rewrite bool_decide_eq_true_2. Qed.

(** ** The loop of parseTags *)

Lemma parseGroups_empty_name (groups : list (list string)) (tags : tagList) :
  Exists (λ group, strings.Trim (nth 1 group "") " " = "") groups →
  parseGroups groups tags = ([], Some ErrUnknownTag).
Proof.
  intros H. revert tags. induction H as [g gs Hg | g gs _ IH]; intros tags; simpl.
  - by rewrite bool_decide_eq_true_2.
  - case_bool_decide; [done|]. apply IH.
Qed.

Lemma parseGroups_names (groups : list (list string)) (tags : tagList) :
  Forall (λ tg, Name tg ≠ "") tags →
  Forall (λ tg, Name tg ≠ "") (parseGroups groups tags).1.
Proof.
  revert tags. induction groups as [|g gs IH]; intros tags Htags; simpl; [done|].
  case_bool_decide as Hname; simpl; [constructor|].
  apply IH. apply Forall_app. split; [done|]. by repeat constructor.
Qed.

Lemma parseGroups_ok (groups : list (list string)) (tags : tagList) :
  Forall (λ group, strings.Trim (nth 1 group "") " " ≠ "" ∧ 2 < length group) groups →
  parseGroups groups tags =
    (tags ++ map (λ group, mkTag (strings.Trim (nth 1 group "") " ")
                             (strings.Trim (nth 2 group "") " ")) groups, None).
Proof.
  intros H. revert tags. induction H as [|g gs [Hg Hlen] _ IH]; intros tags; simpl.
  - by rewrite app_nil_r.
  - rewrite bool_decide_eq_false_2 by done.
    destruct (Nat.ltb_spec 2 (length g)); [|lia].
    rewrite IH. by rewrite <- app_assoc.
Qed.

(** C6. When some extracted name trims to the empty string, parseTags
    returns the empty list together with the unknown-tag error; and no
    list that parseTags returns, for any input, holds a directive with an
    empty name. *)
Theorem parseTags_empty_name (t : string) :
  Exists (λ group, strings.Trim (nth 1 group "") " " = "")
    (FindAllStringSubmatch tagRegexp t) →
  parseTags t = ([], Some ErrUnknownTag)
  ∧ ∀ t' : string, Forall (λ tg, Name tg ≠ "") (parseTags t').1.
Proof.
  intros H. split.
  - by apply parseGroups_empty_name.
  - intros t'. by apply parseGroups_names.
Qed.

Lemma parseTags_empty_name_witness :
  Exists (λ group, strings.Trim (nth 1 group "") " " = "")
    (FindAllStringSubmatch tagRegexp " =x")
  ∧ parseTags " =x" = ([], Some ErrUnknownTag).
Proof.
  assert (Exists (λ group, strings.Trim (nth 1 group "") " " = "")
            (FindAllStringSubmatch tagRegexp " =x")) as H.
  { apply Exists_cons_hd. reflexivity. }
  split; [exact H|]. exact (proj1 (parseTags_empty_name " =x" H)).
Defined.

(** ** validateVar *)

Section ValidateVar.

Variable mv : Validator.
Variable v : reflect.Value.
Variable tags : tagList.



Lemma returns_cons (t : tag) (rest : tagList) :
  returns mv v (t :: rest) →
  (∀ fn, validationFuncs mv !! Name t = Some fn → fn v (Param t) ≠ Panic)
  ∧ returns mv v rest.
Proof.
  intros H. split.
  - intros fn. apply H. by left.
  - intros t' fn Hin. apply H. by right.
Qed.

Lemma returns_app (pre post : tagList) :
  returns mv v (pre ++ post) → returns mv v pre ∧ returns mv v post.
Proof.
  intros H. split; intros t fn Hin; apply H; apply elem_of_app; auto.
Qed.

Lemma registered_cons_Some (t : tag) (rest : tagList) (fn : ValidationFunc) :
  validationFuncs mv !! Name t = Some fn →
  registered mv (t :: rest) = t :: registered mv rest.
Proof. intros H. unfold registered. rewrite filter_cons_True; [done|]. by rewrite H. Qed.

Lemma registered_cons_None (t : tag) (rest : tagList) :
  validationFuncs mv !! Name t = None →
  registered mv (t :: rest) = registered mv rest.
Proof.
  intros H. unfold registered. rewrite filter_cons_False; [done|].
  rewrite H. by intros [? ?].
Qed.

(** All directives known: every registered one is dispatched, and every
    failure is kept. *)
Lemma validateVarLoop_known (rest : tagList) (errs : list error) :
  Forall (known mv) rest → returns mv v rest →
  validateVarLoop mv v tags rest errs =
    (registered mv rest, Ret (errorArray (errs ++ failures mv v tags rest))).
Proof.
  intros Hknown. revert errs.
  induction Hknown as [|t rest Ht _ IH]; intros errs Hret; simpl.
  - rewrite app_nil_r. by destruct errs.
  - apply returns_cons in Hret as [Hfn Hret].
    destruct (validationFuncs mv !! Name t) as [fn|] eqn:Hreg.
    + rewrite (registered_cons_Some _ _ _ Hreg).
      specialize (Hfn fn eq_refl).
      destruct (fn v (Param t)) as [[err|]|] eqn:Hcall; [| |done].
      * rewrite IH by done. unfold called, reported. simpl.
        by rewrite <- app_assoc.
      * rewrite IH by done. done.
    + rewrite (registered_cons_None _ _ Hreg).
      destruct Ht as [Hsome|Hres]; [by rewrite Hreg in Hsome; destruct Hsome|].
      unfold reserved in Hres. rewrite Hres. by apply IH.
Qed.

(** The first directive that is neither registered nor reserved ends the
    loop with the unknown-tag error; what was gathered before is dropped
    and nothing after it is dispatched. *)
Lemma validateVarLoop_unknown (pre post : tagList) (t : tag) (errs : list error) :
  Forall (known mv) pre → returns mv v pre →
  validationFuncs mv !! Name t = None → reserved (Name t) = false →
  validateVarLoop mv v tags (pre ++ t :: post) errs =
    (registered mv pre, Ret (Some ErrUnknownTag)).
Proof.
  intros Hknown. revert errs.
  induction Hknown as [|p pre Hp _ IH]; intros errs Hret Hreg Hres; simpl.
  - rewrite Hreg. unfold reserved in Hres. by rewrite Hres.
  - apply returns_cons in Hret as [Hfn Hret].
    destruct (validationFuncs mv !! Name p) as [fn|] eqn:Hregp.
    + rewrite (registered_cons_Some _ _ _ Hregp).
      specialize (Hfn fn eq_refl).
      destruct (fn v (Param p)) as [[err|]|] eqn:Hcall; [| |done];
        by rewrite IH.
    + rewrite (registered_cons_None _ _ Hregp).
      destruct Hp as [Hsome|Hresp]; [by rewrite Hregp in Hsome; destruct Hsome|].
      unfold reserved in Hresp. rewrite Hresp. by apply IH.
Qed.

(** Only registered names are ever dispatched. *)
Lemma dispatched_registered (rest : tagList) (errs : list error) (t : tag) :
  t ∈ (validateVarLoop mv v tags rest errs).1 →
  is_Some (validationFuncs mv !! Name t).
Proof.
  revert errs. induction rest as [|p rest IH]; intros errs; simpl.
  - by intros ?%elem_of_nil.
  - destruct (validationFuncs mv !! Name p) as [fn|] eqn:Hreg.
    + destruct (fn v (Param p)) as [[err|]|]; simpl.
      * intros [->|Hin]%elem_of_cons; [by rewrite Hreg|]. by eapply IH.
      * intros [->|Hin]%elem_of_cons; [by rewrite Hreg|]. by eapply IH.
      * intros ->%list_elem_of_singleton. by rewrite Hreg.
    + destruct (_ || _); simpl; [by apply IH|]. by intros ?%elem_of_nil.
Qed.

End ValidateVar.

(** C3 (as the code has it). A directive named [attr] or [msg_...] is
    dispatched only when the registry holds a function under that very
    name: when it holds none, the directive is not among the dispatched
    ones, and the loop steps over it without an error. *)
Theorem reserved_not_dispatched (mv : Validator) (v : reflect.Value)
    (tags : tagList) (t : tag) :
  reserved (Name t) = true →
  validationFuncs mv !! Name t = None →
  (t ∉ (validateVar mv v tags).1)
  ∧ ∀ rest errs,
      validateVarLoop mv v tags (t :: rest) errs = validateVarLoop mv v tags rest errs.
Proof.
  intros Hres Hreg. split.
  - intros Hin. apply dispatched_registered in Hin. rewrite Hreg in Hin. by destruct Hin.
  - intros rest errs. simpl. rewrite Hreg. unfold reserved in Hres. by rewrite Hres.
Qed.


(** C3, counterexample: with a function registered under [attr], the
    directive [attr=x] is dispatched, and its failure is reported. *)
Lemma attr_dispatched_when_registered :
  reserved (Name (mkTag "attr" "x")) = true
  ∧ validateVar attrRegistry reflect.Zero [mkTag "attr" "x"]
    = ([mkTag "attr" "x"], Ret (Some (ErrorArray [ErrInvalid]))).
Proof. split; reflexivity. Qed.

Lemma reserved_not_dispatched_witness :
  mkTag "msg_min" "too small" ∉
    (validateVar attrRegistry reflect.Zero
       [mkTag "msg_min" "too small"; mkTag "attr" "x"]).1.
Proof.
  exact (proj1 (reserved_not_dispatched attrRegistry reflect.Zero
                  [mkTag "msg_min" "too small"; mkTag "attr" "x"]
                  (mkTag "msg_min" "too small") eq_refl eq_refl)).
Defined.

(** ** The matcher *)

Lemma tagRegexp_pieces : tagRegexp = Cat (Cap 1 (Plus N)) R1.
Proof. reflexivity. Qed.

Lemma rmatch_N_cons (c : ascii) (s : string) (caps : list string) :
  rmatch N (String c s) caps = if nameChar c then [(s, caps)] else [].
Proof.
  unfold N, nameChar. simpl. rewrite orb_false_r.
  by destruct (Ascii.eqb c "'"), (Ascii.eqb c "=").
Qed.

Lemma star_N_cons (c : ascii) (s : string) (caps : list string) :
  nameChar c = true →
  star (rmatch N) (S (String.length s)) (String c s) caps
  = star (rmatch N) (String.length s) s caps ++ [(String c s, caps)].
Proof.
  intros Hc.
  change (star (rmatch N) (S (String.length s)) (String c s) caps) with
    (flat_map (λ t : thread,
         if Nat.ltb (String.length t.1) (String.length (String c s))
         then star (rmatch N) (String.length s) t.1 t.2 else [])
       (rmatch N (String c s) caps) ++ [(String c s, caps)]).
  rewrite rmatch_N_cons, Hc. simpl flat_map.
  destruct (Nat.ltb_spec (String.length s) (S (String.length s))); [|lia].
  by rewrite app_nil_r.
Qed.

Lemma star_N_stops (fuel : nat) (y : string) (caps : list string) :
  stops y → star (rmatch N) fuel y caps = [(y, caps)].
Proof.
  intros Hy. destruct fuel as [|fuel]; [done|].
  destruct y as [|c y]; [done|]. simpl in Hy.
  change (star (rmatch N) (S fuel) (String c y) caps) with
    (flat_map (λ t : thread,
         if Nat.ltb (String.length t.1) (String.length (String c y))
         then star (rmatch N) fuel t.1 t.2 else [])
       (rmatch N (String c y) caps) ++ [(String c y, caps)]).
  by rewrite rmatch_N_cons, Hy.
Qed.

Lemma gmatch_cons (K : thread → list thread) (c : ascii) (y : string)
    (caps : list string) :
  nameChar c = true →
  gmatch K (String c y) caps = gmatch K y caps ++ K (String c y, caps).
Proof.
  intros Hc. unfold gmatch.
  change (String.length (String c y)) with (S (String.length y)).
  rewrite star_N_cons by done. rewrite flat_map_app. simpl. by rewrite app_nil_r.
Qed.

Lemma gmatch_stops (K : thread → list thread) (y : string) (caps : list string) :
  stops y → gmatch K y caps = K (y, caps).
Proof.
  intros Hy. unfold gmatch. rewrite star_N_stops by done. simpl. by rewrite app_nil_r.
Qed.

(** Greedy: a match found after the run [p] stays the first one when the
    run is put in front. *)
Lemma gmatch_app_hd (K : thread → list thread) (p y : string)
    (caps : list string) (t : thread) (l : list thread) :
  Str.all nameChar p = true →
  gmatch K y caps = t :: l →
  ∃ l', gmatch K (p +:+ y) caps = t :: l'.
Proof.
  induction p as [|c p IH]; intros Hp Hy.
  - exists l. by rewrite app_empty_l.
  - simpl in Hp. apply andb_true_iff in Hp as [Hc Hp].
    destruct (IH Hp Hy) as [l' Hl'].
    rewrite app_cons, gmatch_cons by done. rewrite Hl'. eauto.
Qed.

(** No match at all while the run goes on and [K] rejects every input that
    starts with a byte of a name. *)
Lemma gmatch_nil (K : thread → list thread) (p y : string) (caps : list string) :
  Str.all bareChar p = true →
  (∀ d q, bareChar d = true → K (String d q, caps) = []) →
  gmatch K y caps = [] →
  gmatch K (p +:+ y) caps = [].
Proof.
  induction p as [|c p IH]; intros Hp HK Hy.
  - by rewrite app_empty_l.
  - simpl in Hp. apply andb_true_iff in Hp as [Hc Hp].
    assert (nameChar c = true) as Hn.
    { unfold bareChar in Hc. by apply andb_true_iff in Hc as [? _]. }
    rewrite app_cons, gmatch_cons by done.
    rewrite IH by done. by rewrite HK.
Qed.

(** The defining equations of the matcher. *)
Lemma rmatch_Cat (r1 r2 : Regexp) (s : string) (caps : list string) :
  rmatch (Cat r1 r2) s caps
  = flat_map (λ t : thread, rmatch r2 t.1 t.2) (rmatch r1 s caps).
Proof. reflexivity. Qed.

Lemma rmatch_Alt (r1 r2 : Regexp) (s : string) (caps : list string) :
  rmatch (Alt r1 r2) s caps = rmatch r1 s caps ++ rmatch r2 s caps.
Proof. reflexivity. Qed.

Lemma rmatch_Quest (r : Regexp) (s : string) (caps : list string) :
  rmatch (Quest r) s caps = rmatch r s caps ++ [(s, caps)].
Proof. reflexivity. Qed.

Lemma rmatch_Lit_cons (c d : ascii) (y : string) (caps : list string) :
  rmatch (Lit c) (String d y) caps = if Ascii.eqb c d then [(y, caps)] else [].
Proof. reflexivity. Qed.

Lemma rmatch_Lit_empty (c : ascii) (caps : list string) :
  rmatch (Lit c) "" caps = [].
Proof. reflexivity. Qed.

Lemma rmatch_EndText_cons (d : ascii) (y : string) (caps : list string) :
  rmatch EndText (String d y) caps = [].
Proof. reflexivity. Qed.

Lemma rmatch_Cap (i : nat) (r : Regexp) (s : string) (caps : list string) :
  rmatch (Cap i r) s caps
  = map (λ t : thread, (t.1, <[i := consumed s t.1]> t.2)) (rmatch r s caps).
Proof. reflexivity. Qed.

Lemma flat_map_one {A B : Type} (f : A → list B) (a : A) : flat_map f [a] = f a.
Proof. simpl. by rewrite app_nil_r. Qed.

Lemma flat_map_map {A B C : Type} (f : A → B) (g : B → list C) (l : list A) :
  flat_map g (map f l) = flat_map (λ a, g (f a)) l.
Proof. induction l as [|a l IH]; simpl; [done|]. by rewrite IH. Qed.

Lemma rmatch_R3 (x : string) (caps : list string) :
  rmatch R3 x caps
  = gmatch (λ t, rmatch R4 t.1 (<[2 := consumed x t.1]> t.2)) x caps.
Proof.
  unfold R3, gmatch.
  change (rmatch (Cat (Cap 2 (Star N)) R4) x caps) with
    (flat_map (λ t : thread, rmatch R4 t.1 t.2)
       (map (λ t : thread, (t.1, <[2 := consumed x t.1]> t.2))
          (star (rmatch N) (String.length x) x caps))).
  by rewrite flat_map_map.
Qed.

Lemma rmatch_tagRegexp_cons (c : ascii) (y : string) (caps : list string) :
  rmatch tagRegexp (String c y) caps
  = if nameChar c
    then gmatch (λ t, rmatch R1 t.1 (<[1 := consumed (String c y) t.1]> t.2)) y caps
    else [].
Proof.
  rewrite tagRegexp_pieces. unfold gmatch.
  change (rmatch (Cat (Cap 1 (Plus N)) R1) (String c y) caps) with
    (flat_map (λ t : thread, rmatch R1 t.1 t.2)
       (map (λ t : thread, (t.1, <[1 := consumed (String c y) t.1]> t.2))
          (flat_map (λ t : thread, star (rmatch N) (String.length t.1) t.1 t.2)
             (rmatch N (String c y) caps)))).
  rewrite rmatch_N_cons. destruct (nameChar c); [|done].
  simpl flat_map at 2. rewrite app_nil_r. by rewrite flat_map_map.
Qed.

Lemma rmatch_tagRegexp_empty (caps : list string) : rmatch tagRegexp "" caps = [].
Proof. reflexivity. Qed.

(** *** What follows the second group *)

Lemma rmatch_R4_empty (c : list string) : rmatch R4 "" c = [("", c)].
Proof. reflexivity. Qed.

Lemma rmatch_R4_comma (y : string) (c : list string) :
  rmatch R4 (String ","%char y) c = [(y, c)].
Proof. reflexivity. Qed.

Lemma rmatch_R4_eq (y : string) (c : list string) :
  rmatch R4 (String "="%char y) c = [].
Proof. reflexivity. Qed.

Lemma rmatch_R4_bare (d : ascii) (y : string) (c : list string) :
  bareChar d = true → rmatch R4 (String d y) c = [].
Proof.
  unfold bareChar, nameChar. intros H.
  apply andb_true_iff in H as [[Hq He]%andb_true_iff Hc].
  apply negb_true_iff in Hq, Hc.
  unfold R4, R5.
  rewrite rmatch_Cat, rmatch_Quest, rmatch_Lit_cons.
  rewrite (Ascii.eqb_sym "'"%char d), Hq. rewrite app_nil_l, flat_map_one.
  cbn [fst snd].
  rewrite rmatch_Alt, rmatch_Lit_cons, rmatch_EndText_cons.
  by rewrite (Ascii.eqb_sym ","%char d), Hc.
Qed.

Lemma rmatch_R4_quote_end (c : list string) : rmatch R4 "'" c = [("", c)].
Proof. reflexivity. Qed.

Lemma rmatch_R4_quote_comma (y : string) (c : list string) :
  rmatch R4 (String "'"%char (String ","%char y)) c = [(y, c)].
Proof. reflexivity. Qed.

(** *** The optional opening quote *)

Lemma rmatch_R2_quote (z : string) (caps : list string) :
  rmatch R2 (String "'"%char z) caps
  = rmatch R3 z caps ++ rmatch R3 (String "'"%char z) caps.
Proof.
  unfold R2.
  change (rmatch (Cat (Quest (Lit "'")) R3) (String "'"%char z) caps) with
    (flat_map (λ t : thread, rmatch R3 t.1 t.2)
       ([(z, caps)] ++ [(String "'"%char z, caps)])).
  simpl flat_map. by rewrite app_nil_r.
Qed.

Lemma rmatch_R2_no_quote (x : string) (caps : list string) :
  match x with String d _ => Ascii.eqb d "'"%char = false | EmptyString => True end →
  rmatch R2 x caps = rmatch R3 x caps.
Proof.
  intros Hx. unfold R2.
  change (rmatch (Cat (Quest (Lit "'")) R3) x caps) with
    (flat_map (λ t : thread, rmatch R3 t.1 t.2)
       (rmatch (Lit "'"%char) x caps ++ [(x, caps)])).
  assert (rmatch (Lit "'"%char) x caps = []) as ->.
  { destruct x as [|d x]; [done|].
    by rewrite rmatch_Lit_cons, (Ascii.eqb_sym "'"%char d), Hx. }
  by rewrite app_nil_l, flat_map_one.
Qed.

(** *** The value of a directive *)

Lemma nameChar_not_quote (d : ascii) : nameChar d = true → Ascii.eqb d "'"%char = false.
Proof.
  unfold nameChar. intros [Hq _]%andb_true_iff. by apply negb_true_iff in Hq.
Qed.

Lemma bareChar_nameChar (d : ascii) : bareChar d = true → nameChar d = true.
Proof. unfold bareChar. by intros [? _]%andb_true_iff. Qed.

Lemma all_bare_name (s : string) :
  Str.all bareChar s = true → Str.all nameChar s = true.
Proof. apply all_impl, bareChar_nameChar. Qed.

(** A bare value at the end of the input. *)
Lemma rmatch_R2_bare_last (p : string) (caps : list string) :
  Str.all nameChar p = true →
  ∃ l, rmatch R2 p caps = ("", <[2 := p]> caps) :: l.
Proof.
  intros Hp.
  rewrite rmatch_R2_no_quote.
  2:{ destruct p as [|d p]; [done|]. simpl in Hp.
      apply andb_true_iff in Hp as [Hd _]. by apply nameChar_not_quote. }
  rewrite rmatch_R3.
  destruct (gmatch_app_hd
              (λ t : thread, rmatch R4 t.1 (<[2 := consumed p t.1]> t.2))
              p "" caps ("", <[2 := p]> caps) [] Hp) as [l' Hl'].
  - rewrite gmatch_stops by done. cbn [fst snd].
    rewrite <- (app_empty_r p) at 1. by rewrite consumed_app, rmatch_R4_empty.
  - rewrite app_empty_r in Hl'. rewrite Hl'. eauto.
Qed.

(** A bare value followed by a comma and the next directive, whose name
    holds no comma. *)
Lemma rmatch_R2_bare_more (p n2 rest : string) (caps : list string) :
  Str.all nameChar p = true →
  Str.all bareChar n2 = true →
  ∃ l, rmatch R2 (p +:+ "," +:+ n2 +:+ "=" +:+ rest) caps
       = (n2 +:+ "=" +:+ rest, <[2 := p]> caps) :: l.
Proof.
  intros Hp Hn2.
  rewrite rmatch_R2_no_quote.
  2:{ destruct p as [|d p]; [done|]. simpl in Hp.
      apply andb_true_iff in Hp as [Hd _]. rewrite app_cons.
      by apply nameChar_not_quote. }
  rewrite rmatch_R3.
  eapply gmatch_app_hd; [done|].
  change ("," +:+ n2 +:+ "=" +:+ rest) with (String ","%char (n2 +:+ "=" +:+ rest)).
  rewrite gmatch_cons by done.
  rewrite gmatch_nil; [| done | |].
  - rewrite app_nil_l. cbn [fst snd].
    change (String ","%char (n2 +:+ "=" +:+ rest)) with ("," +:+ n2 +:+ "=" +:+ rest).
    rewrite consumed_app.
    change ("," +:+ n2 +:+ "=" +:+ rest) with (String ","%char (n2 +:+ "=" +:+ rest)).
    by rewrite rmatch_R4_comma.
  - intros d q Hd. cbn [fst snd]. by apply rmatch_R4_bare.
  - rewrite gmatch_stops by done. cbn [fst snd]. apply rmatch_R4_eq.
Qed.

(** A quoted value at the end of the input. *)
Lemma rmatch_R2_quoted_last (p : string) (caps : list string) :
  Str.all nameChar p = true →
  ∃ l, rmatch R2 ("'" +:+ p +:+ "'") caps = ("", <[2 := p]> caps) :: l.
Proof.
  intros Hp.
  change ("'" +:+ p +:+ "'") with (String "'"%char (p +:+ "'")).
  rewrite rmatch_R2_quote, rmatch_R3.
  destruct (gmatch_app_hd
              (λ t : thread, rmatch R4 t.1 (<[2 := consumed (p +:+ "'") t.1]> t.2))
              p "'" caps ("", <[2 := p]> caps) [] Hp) as [l' Hl'].
  - rewrite gmatch_stops by done. cbn [fst snd].
    by rewrite consumed_app, rmatch_R4_quote_end.
  - rewrite Hl'. eauto.
Qed.

(** A quoted value followed by a comma. *)
Lemma rmatch_R2_quoted_more (p y : string) (caps : list string) :
  Str.all nameChar p = true →
  ∃ l, rmatch R2 ("'" +:+ p +:+ "'" +:+ "," +:+ y) caps = (y, <[2 := p]> caps) :: l.
Proof.
  intros Hp.
  change ("'" +:+ p +:+ "'" +:+ "," +:+ y)
    with (String "'"%char (p +:+ "'" +:+ "," +:+ y)).
  rewrite rmatch_R2_quote, rmatch_R3.
  destruct (gmatch_app_hd
              (λ t : thread,
                 rmatch R4 t.1 (<[2 := consumed (p +:+ "'" +:+ "," +:+ y) t.1]> t.2))
              p ("'" +:+ "," +:+ y) caps (y, <[2 := p]> caps) [] Hp) as [l' Hl'].
  - rewrite gmatch_stops by done. cbn [fst snd].
    rewrite consumed_app.
    change ("'" +:+ "," +:+ y) with (String "'"%char (String ","%char y)).
    by rewrite rmatch_R4_quote_comma.
  - rewrite Hl'. eauto.
Qed.

(** *** A whole directive *)

Lemma rmatch_R1_eq (x : string) (caps : list string) :
  rmatch R1 (String "="%char x) caps = rmatch R2 x caps.
Proof.
  unfold R1. rewrite rmatch_Cat.
  change (rmatch (Lit "="%char) (String "="%char x) caps) with [(x, caps)].
  by rewrite flat_map_one.
Qed.

Lemma rmatch_tagRegexp_first (n x : string) (caps : list string)
    (t : thread) (l : list thread) :
  n ≠ "" → Str.all nameChar n = true →
  rmatch R2 x (<[1 := n]> caps) = t :: l →
  ∃ l', rmatch tagRegexp (n +:+ "=" +:+ x) caps = t :: l'.
Proof.
  intros Hne Hn Hx. destruct n as [|c n]; [done|].
  simpl in Hn. apply andb_true_iff in Hn as [Hc Hn].
  rewrite app_cons, rmatch_tagRegexp_cons, Hc.
  eapply gmatch_app_hd; [done|].
  rewrite gmatch_stops by done. cbn [fst snd].
  change (String c (n +:+ "=" +:+ x)) with (String c n +:+ "=" +:+ x).
  rewrite consumed_app.
  change ("=" +:+ x) with (String "="%char x).
  rewrite rmatch_R1_eq. exact Hx.
Qed.

(** *** Every match of tagRegexp *)

Lemma star_N_inv (fuel : nat) (y : string) (caps : list string) (t : thread) :
  In t (star (rmatch N) fuel y caps) →
  t.2 = caps ∧ ∃ w, y = w +:+ t.1 ∧ Str.all nameChar w = true.
Proof.
  revert y. induction fuel as [|fuel IH]; intros y.
  - intros [<-|[]]. split; [done|]. by exists "".
  - change (star (rmatch N) (S fuel) y caps) with
      (flat_map (λ t : thread,
           if Nat.ltb (String.length t.1) (String.length y)
           then star (rmatch N) fuel t.1 t.2 else [])
         (rmatch N y caps) ++ [(y, caps)]).
    intros [Hin|[<-|[]]]%in_app_iff.
    2:{ split; [done|]. by exists "". }
    apply in_flat_map in Hin as (t1 & Ht1 & Hin).
    destruct y as [|c y]; [done|].
    rewrite rmatch_N_cons in Ht1. destruct (nameChar c) eqn:Hc; [|done].
    destruct Ht1 as [<-|[]]. cbn [fst snd] in Hin.
    destruct (Nat.ltb _ _); [|done].
    apply IH in Hin as (Hcaps & w & -> & Hw).
    split; [done|]. exists (String c w). split; [done|].
    simpl. by rewrite Hc, Hw.
Qed.

Lemma gmatch_inv (K : thread → list thread) (y : string) (caps : list string)
    (t : thread) :
  In t (gmatch K y caps) →
  ∃ w z, y = w +:+ z ∧ Str.all nameChar w = true ∧ In t (K (z, caps)).
Proof.
  unfold gmatch. intros (t1 & Ht1 & Hin)%in_flat_map.
  apply star_N_inv in Ht1 as (Hcaps & w & Hy & Hw).
  exists w, t1.1. destruct t1 as [z c1]. simpl in *. by subst.
Qed.

Lemma rmatch_R4_caps (z : string) (c : list string) (t : thread) :
  In t (rmatch R4 z c) → t.2 = c.
Proof.
  unfold R4, R5. rewrite rmatch_Cat, rmatch_Quest.
  intros (t1 & Ht1 & Hin)%in_flat_map.
  assert (t1.2 = c) as Hc1.
  { apply in_app_iff in Ht1 as [Ht1|[<-|[]]]; [|done].
    destruct z as [|d z]; [done|]. rewrite rmatch_Lit_cons in Ht1.
    destruct (Ascii.eqb _ _); [|done]. by destruct Ht1 as [<-|[]]. }
  rewrite rmatch_Alt in Hin. apply in_app_iff in Hin as [Hin|Hin].
  - destruct (t1.1) as [|d z']; [done|]. rewrite rmatch_Lit_cons in Hin.
    destruct (Ascii.eqb _ _); [|done]. by destruct Hin as [<-|[]].
  - destruct (t1.1) as [|d z']; [|done]. by destruct Hin as [<-|[]].
Qed.

Lemma rmatch_R2_inv (x : string) (c : list string) (t : thread) :
  In t (rmatch R2 x c) → ∃ p, Str.all nameChar p = true ∧ t.2 = <[2 := p]> c.
Proof.
  unfold R2. rewrite rmatch_Cat, rmatch_Quest.
  intros (t1 & Ht1 & Hin)%in_flat_map.
  assert (t1.2 = c) as Hc1.
  { apply in_app_iff in Ht1 as [Ht1|[<-|[]]]; [|done].
    destruct x as [|d x]; [done|]. rewrite rmatch_Lit_cons in Ht1.
    destruct (Ascii.eqb _ _); [|done]. by destruct Ht1 as [<-|[]]. }
  rewrite rmatch_R3 in Hin. apply gmatch_inv in Hin as (w & z & Hx & Hw & Hin).
  cbn [fst snd] in Hin. apply rmatch_R4_caps in Hin.
  exists w. split; [done|]. rewrite Hin, Hx, consumed_app. by rewrite Hc1.
Qed.

(** A match of tagRegexp starts with a non-empty run of [^'=] and an
    equals sign; its two groups are runs of [^'=]. *)
Lemma rmatch_tagRegexp_inv (s : string) (caps : list string) (t : thread) :
  In t (rmatch tagRegexp s caps) →
  ∃ n x p, s = n +:+ "=" +:+ x ∧ n ≠ "" ∧ Str.all nameChar n = true
           ∧ Str.all nameChar p = true ∧ t.2 = <[2 := p]> (<[1 := n]> caps).
Proof.
  destruct s as [|c y]; [done|].
  rewrite rmatch_tagRegexp_cons. destruct (nameChar c) eqn:Hc; [|done].
  intros (w & z & Hy & Hw & Hin)%gmatch_inv. cbn [fst snd] in Hin.
  unfold R1 in Hin. rewrite rmatch_Cat in Hin.
  apply in_flat_map in Hin as (t1 & Ht1 & Hin).
  destruct z as [|d x]; [done|]. rewrite rmatch_Lit_cons in Ht1.
  destruct (Ascii.eqb_spec "="%char d) as [<-|]; [|done].
  destruct Ht1 as [<-|[]]. cbn [fst snd] in Hin.
  apply rmatch_R2_inv in Hin as (p & Hp & Hcaps).
  exists (String c w), x, p. subst y. repeat split; try done.
  - simpl. by rewrite Hc, Hw.
  - rewrite Hcaps.
    change (String c (w +:+ String "="%char x)) with (String c w +:+ String "="%char x).
    by rewrite consumed_app.
Qed.

(** *** search and the loop of FindAllStringSubmatch *)

Lemma search_unfold (r : Regexp) (s : string) :
  search r s =
    match rmatch r s (replicate (S (NumSubexp r)) "") with
    | (rest, caps) :: _ => Some (s, rest, <[0 := consumed s rest]> caps)
    | [] =>
        match s with
        | String _ s' => search r s'
        | EmptyString => None
        end
    end.
Proof. by destruct s. Qed.

Lemma allMatches_unfold (fuel : nat) (r : Regexp) (pos : string) (prev : option nat) :
  allMatches (S fuel) r pos prev =
    match search r pos with
    | None => []
    | Some (start, rest, groups) =>
        if Nat.eqb (String.length rest) (String.length pos)
        then
          let accept := negb (bool_decide (prev = Some (String.length start))) in
          let more :=
            match pos with
            | String _ pos' => allMatches fuel r pos' (Some (String.length rest))
            | EmptyString => []
            end in
          if accept then groups :: more else more
        else groups :: allMatches fuel r rest (Some (String.length rest))
    end.
Proof. reflexivity. Qed.

Lemma search_tagRegexp_inv (s start rest : string) (groups : list string) :
  search tagRegexp s = Some (start, rest, groups) → tagGroups groups.
Proof.
  induction s as [|c s IH]; rewrite search_unfold.
  - by rewrite rmatch_tagRegexp_empty.
  - destruct (rmatch tagRegexp (String c s) _) as [|[rest' caps] l] eqn:Hm.
    + exact IH.
    + intros [= <- <- <-].
      assert (In (rest', caps) (rmatch tagRegexp (String c s)
                (replicate (S (NumSubexp tagRegexp)) ""))) as Hin.
      { rewrite Hm. by left. }
      apply rmatch_tagRegexp_inv in Hin as (n & x & p & _ & Hne & Hn & Hp & Hcaps).
      simpl in Hcaps. subst caps.
      exists (consumed (String c s) rest'), n, p. done.
Qed.

Lemma allMatches_tagRegexp (fuel : nat) (pos : string) (prev : option nat) :
  Forall tagGroups (allMatches fuel tagRegexp pos prev).
Proof.
  revert pos prev. induction fuel as [|fuel IH]; intros pos prev; [constructor|].
  rewrite allMatches_unfold.
  destruct (search tagRegexp pos) as [[[start rest] groups]|] eqn:Hs; [|constructor].
  apply search_tagRegexp_inv in Hs.
  destruct (Nat.eqb _ _).
  - cbv zeta. destruct (negb _).
    + constructor; [done|]. destruct pos; [constructor|apply IH].
    + destruct pos; [constructor|apply IH].
  - constructor; [done|apply IH].
Qed.

(** An input without an equals sign has no match. *)
Lemma search_tagRegexp_no_eq (s : string) :
  noEquals s = true →
  search tagRegexp s = None.
Proof.
  induction s as [|c s IH]; intros Hs; rewrite search_unfold.
  - by rewrite rmatch_tagRegexp_empty.
  - destruct (rmatch tagRegexp (String c s) _) as [|t l] eqn:Hm.
    + apply IH. unfold noEquals in *. simpl in Hs. by apply andb_true_iff in Hs as [_ ?].
    + exfalso.
      assert (In t (rmatch tagRegexp (String c s)
                (replicate (S (NumSubexp tagRegexp)) ""))) as Hin.
      { rewrite Hm. by left. }
      apply rmatch_tagRegexp_inv in Hin as (n & x & p & Heq & _).
      unfold noEquals in Hs. rewrite Heq in Hs. rewrite !all_app in Hs.
      apply andb_true_iff in Hs as [_ Hs]. by apply andb_true_iff in Hs as [Hs _].
Qed.

(** Case analysis on a value, down to nil or non-nil for a pointer and an
    interface. *)
Ltac value_cases v := destruct v as [| | | | | | | |? [?|]|? [?|]|].

Lemma valid_scalar (mv : Validator) (val : reflect.Value) (tags : tagList) :
  scalarValue val = true → valid mv val tags = validateVar mv val tags.
Proof. by value_cases val. Qed.

(** C9. An annotation without an equals sign parses to the empty
    directive list with no error, and validating any value against that
    list dispatches nothing and returns no error; so does Valid on the raw
    annotation, for a value that reaches validateVar. *)
Theorem parseTags_no_equals (t : string) :
  noEquals t = true →
  parseTags t = ([], None)
  ∧ (∀ (mv : Validator) (v : reflect.Value),
       validateVar mv v (parseTags t).1 = ([], Ret None))
  ∧ ∀ (mv : Validator) (v : reflect.Value),
      scalarValue v = true → Valid mv v t = ([], Ret None).
Proof.
  intros Ht.
  assert (parseTags t = ([], None)) as Hparse.
  { unfold parseTags, FindAllStringSubmatch.
    rewrite allMatches_unfold. by rewrite search_tagRegexp_no_eq. }
  split_and!; [done|intros mv v; by rewrite Hparse|].
  intros mv v Hv. unfold Valid. case_bool_decide; [done|].
  rewrite Hparse. by rewrite valid_scalar.
Qed.

Lemma parseTags_no_equals_witness :
  parseTags "required" = ([], None)
  ∧ validateVar attrRegistry (reflect.OfString "string" "") (parseTags "required").1
    = ([], Ret None).
Proof.
  split.
  - exact (proj1 (parseTags_no_equals "required" eq_refl)).
  - exact (proj1 (proj2 (parseTags_no_equals "required" eq_refl)) attrRegistry
             (reflect.OfString "string" "")).
Defined.

(** ** Re-joining and parsing again *)

Lemma rejoin_one (t : tag) : rejoin [t] = directiveText t.
Proof. reflexivity. Qed.

Lemma rejoin_more (t t2 : tag) (ts : tagList) :
  rejoin (t :: t2 :: ts) = directiveText t +:+ "," +:+ rejoin (t2 :: ts).
Proof. reflexivity. Qed.

Lemma rejoin_head (t : tag) (ts : tagList) :
  ∃ rest, rejoin (t :: ts) = Name t +:+ "=" +:+ rest.
Proof.
  destruct ts as [|t2 ts].
  - rewrite rejoin_one. unfold directiveText. eauto.
  - rewrite rejoin_more. unfold directiveText.
    exists (quoteParam (Param t) +:+ "," +:+ rejoin (t2 :: ts)).
    by rewrite !app_assoc_str.
Qed.

Lemma hasComma_false_bare (s : string) :
  Str.all nameChar s = true → hasComma s = false → Str.all bareChar s = true.
Proof.
  unfold hasComma. intros Hs Hc. apply negb_false_iff in Hc.
  induction s as [|c s IH]; [done|]. simpl in *.
  apply andb_true_iff in Hs as [Hc1 Hs]. apply andb_true_iff in Hc as [Hc2 Hc].
  rewrite IH by done. unfold bareChar. by rewrite Hc1, Hc2.
Qed.

(** The first match on a directive that is followed by [tail], when its
    value matches up to there. *)
Lemma search_directive (t : tag) (x tail : string) (l : list thread) :
  Name t ≠ "" → Str.all nameChar (Name t) = true →
  rmatch R2 x (<[1 := Name t]> (replicate 3 ""))
    = (tail, <[2 := Param t]> (<[1 := Name t]> (replicate 3 ""))) :: l →
  ∃ g, search tagRegexp (Name t +:+ "=" +:+ x)
       = Some (Name t +:+ "=" +:+ x, tail, g) ∧ groupOf t g.
Proof.
  intros Hne Hn Hx.
  destruct (rmatch_tagRegexp_first _ _ (replicate 3 "") _ _ Hne Hn Hx) as [l' Hl'].
  rewrite search_unfold.
  change (replicate (S (NumSubexp tagRegexp)) "") with (replicate 3 "").
  rewrite Hl'. eexists. split; [reflexivity|]. by repeat split.
Qed.

Lemma search_rejoin_last (t : tag) :
  cleanTag t →
  ∃ g, search tagRegexp (directiveText t) = Some (directiveText t, "", g)
       ∧ groupOf t g.
Proof.
  intros (Hne & Hn & _ & Hp & _). apply all_bare_name in Hn.
  unfold directiveText, quoteParam. destruct (hasComma (Param t)).
  - destruct (rmatch_R2_quoted_last (Param t) (<[1 := Name t]> (replicate 3 "")) Hp)
      as [l Hl].
    by eapply search_directive.
  - destruct (rmatch_R2_bare_last (Param t) (<[1 := Name t]> (replicate 3 "")) Hp)
      as [l Hl].
    by eapply search_directive.
Qed.

Lemma search_rejoin_more (t t2 : tag) (ts : tagList) :
  cleanTag t → cleanTag t2 →
  ∃ g, search tagRegexp (rejoin (t :: t2 :: ts))
       = Some (rejoin (t :: t2 :: ts), rejoin (t2 :: ts), g)
       ∧ groupOf t g.
Proof.
  intros (Hne & Hn & _ & Hp & _) (_ & Hn2 & _). apply all_bare_name in Hn.
  rewrite rejoin_more. unfold directiveText at 1 2.
  rewrite !app_assoc_str. unfold quoteParam.
  destruct (hasComma (Param t)).
  - rewrite !app_assoc_str.
    destruct (rmatch_R2_quoted_more (Param t) (rejoin (t2 :: ts))
                (<[1 := Name t]> (replicate 3 "")) Hp) as [l Hl].
    by eapply search_directive.
  - destruct (rejoin_head t2 ts) as [rest Hrest]. rewrite Hrest.
    destruct (rmatch_R2_bare_more (Param t) (Name t2) rest
                (<[1 := Name t]> (replicate 3 "")) Hp Hn2) as [l Hl].
    by eapply search_directive.
Qed.

Lemma directiveText_nonempty (t : tag) : 0 < String.length (directiveText t).
Proof.
  unfold directiveText. rewrite !length_app_str.
  change (String.length "=") with 1. lia.
Qed.

Lemma allMatches_rejoin (tags : tagList) :
  Forall cleanTag tags →
  ∀ fuel prev, String.length (rejoin tags) < fuel →
    Forall2 (λ g t, groupOf t g) (allMatches fuel tagRegexp (rejoin tags) prev) tags.
Proof.
  induction 1 as [|t ts Ht Hts IH]; intros fuel prev Hfuel.
  - destruct fuel as [|fuel]; [constructor|].
    rewrite allMatches_unfold, search_unfold. constructor.
  - destruct fuel as [|fuel]; [lia|]. rewrite allMatches_unfold.
    destruct ts as [|t2 ts].
    + destruct (search_rejoin_last t Ht) as (g & Hs & Hg).
      rewrite rejoin_one in *. rewrite Hs.
      pose proof (directiveText_nonempty t) as Hlen.
      destruct (Nat.eqb_spec (String.length "") (String.length (directiveText t)))
        as [Heq|_]; [simpl in Heq; lia|].
      constructor; [done|].
      destruct fuel as [|fuel]; [constructor|].
      rewrite allMatches_unfold, search_unfold. constructor.
    + destruct (search_rejoin_more t t2 ts Ht (Forall_inv Hts)) as (g & Hs & Hg).
      rewrite Hs.
      assert (String.length (rejoin (t2 :: ts)) < String.length (rejoin (t :: t2 :: ts)))
        as Hlen.
      { rewrite rejoin_more, !length_app_str.
        pose proof (directiveText_nonempty t). lia. }
      destruct (Nat.eqb_spec (String.length (rejoin (t2 :: ts)))
                  (String.length (rejoin (t :: t2 :: ts)))) as [Heq|_]; [lia|].
      constructor; [done|]. apply IH. lia.
Qed.

Lemma parseGroups_groupOf (groups : list (list string)) (tags acc : tagList) :
  Forall cleanTag tags →
  Forall2 (λ g t, groupOf t g) groups tags →
  parseGroups groups acc = (acc ++ tags, None).
Proof.
  intros Hclean Hg. revert acc.
  induction Hg as [|g t groups tags (Hlen & Hn & Hp) _ IH]; intros acc.
  - by rewrite app_nil_r.
  - apply Forall_cons in Hclean as [(Hne & _ & Htn & _ & Htp) Hclean].
    simpl. rewrite Hn, Hp, Hlen.
    rewrite !trimmed_Trim by done.
    rewrite bool_decide_eq_false_2 by done.
    change (Nat.ltb 2 3) with true. cbv iota.
    rewrite IH by done. rewrite <- app_assoc. by destruct t.
Qed.

(** Directives that are clean parse back from their re-joined text. *)
Lemma parseTags_rejoin (tags : tagList) :
  Forall cleanTag tags → parseTags (rejoin tags) = (tags, None).
Proof.
  intros Hclean. unfold parseTags, FindAllStringSubmatch.
  by rewrite (parseGroups_groupOf _ tags []);
    [|done|apply allMatches_rejoin; [done|lia]].
Qed.

(** What parseTags returns without an error: trimmed names and parameters
    made of bytes of [^'=], the names non-empty. *)
Lemma parseGroups_inv (groups : list (list string)) (acc tags : tagList) :
  Forall tagGroups groups →
  parseGroups groups acc = (tags, None) →
  ∃ new, tags = acc ++ new
    ∧ Forall (λ t, Name t ≠ "" ∧ Str.all nameChar (Name t) = true
                   ∧ trimmed (λ c, Str.mem c " ") (Name t)
                   ∧ Str.all nameChar (Param t) = true
                   ∧ trimmed (λ c, Str.mem c " ") (Param t)) new.
Proof.
  intros Hg. revert acc.
  induction Hg as [|g groups (whole & n & p & -> & Hne & Hn & Hp) _ IH]; intros acc.
  - intros [= <-]. exists []. by rewrite app_nil_r.
  - simpl. case_bool_decide as Hname; [done|].
    intros (new & -> & Hnew)%IH.
    eexists (_ :: new). rewrite <- app_assoc. split; [done|].
    constructor; [|done]. simpl.
    repeat split; try done; try apply Trim_all; try done; apply Trim_trimmed.
Qed.

Lemma parseTags_clean (s : string) (tags : tagList) :
  parseTags s = (tags, None) →
  Forall (λ t, hasComma (Name t) = false) tags →
  Forall cleanTag tags.
Proof.
  unfold parseTags, FindAllStringSubmatch. intros Hparse Hcomma.
  apply parseGroups_inv in Hparse as (new & -> & Hnew);
    [|apply allMatches_tagRegexp].
  rewrite app_nil_l in *.
  induction Hnew as [|t new (Hne & Hn & Htn & Hp & Htp) _ IH]; [constructor|].
  apply Forall_cons in Hcomma as [Hc Hcomma].
  constructor; [|by apply IH].
  unfold cleanTag. split_and!; try done. by apply hasComma_false_bare.
Qed.

(** C4 (as the code has it). When an annotation parses without error into
    directives whose names hold no comma, re-joining the (name, param)
    pairs with [=] and [,], a parameter with a comma put between single
    quotes, and parsing the result yields the same directive list, in the
    same order. *)
Theorem parse_rejoin_roundtrip (s : string) (tags : tagList) :
  parseTags s = (tags, None) →
  Forall (λ t, hasComma (Name t) = false) tags →
  parseTags (rejoin tags) = (tags, None).
Proof.
  intros Hparse Hcomma. apply parseTags_rejoin. by eapply parseTags_clean.
Qed.

Lemma parse_rejoin_roundtrip_witness :
  parseTags "quoted='v,a,l,u,e',name1=val1"
    = ([mkTag "quoted" "v,a,l,u,e"; mkTag "name1" "val1"], None)
  ∧ parseTags (rejoin [mkTag "quoted" "v,a,l,u,e"; mkTag "name1" "val1"])
    = ([mkTag "quoted" "v,a,l,u,e"; mkTag "name1" "val1"], None).
Proof.
  split; [reflexivity|].
  apply (parse_rejoin_roundtrip "quoted='v,a,l,u,e',name1=val1"); [reflexivity|].
  repeat constructor.
Defined.

(** C4, counterexample.  The annotation below is well-formed: a quoted
    directive, a comma, and a bare directive whose name, made of characters
    other than the quote and the equals sign, holds a comma.  It parses
    into two directives; re-joined, the first value is no longer quoted and
    the greedy second group takes the first half of the next name with
    it. *)
Lemma rejoin_comma_in_name :
  well_formed "a='b',x,y=d"
  ∧ parseTags "a='b',x,y=d" = ([mkTag "a" "b"; mkTag "x,y" "d"], None)
  ∧ rejoin [mkTag "a" "b"; mkTag "x,y" "d"] = "a=b,x,y=d"
  ∧ parseTags "a=b,x,y=d" = ([mkTag "a" "b,x"; mkTag "y" "d"], None).
Proof.
  split; [|by repeat split].
  apply (wf_more "a='b'" "x,y=d").
  - by apply (quoted_directive "a" "b").
  - apply wf_last. by apply (bare_directive "x,y" "d").
Qed.

(** ** valid and Validate *)

Section TraversalFacts.

Variable rangeOrder : ErrorMap → list (string * error).
Variable mv : Validator.

(** A field that reaches [valid]: exported, with a tag that parses, and not
    a struct. *)
Lemma validateField_scalar (nested : outcome ErrorMap) (sf : reflect.StructField)
    (fv : reflect.Value) (m : ErrorMap) (tags : tagList) (r : option error) :
  reflect.Get (reflect.Tag sf) (tagName mv) ≠ "-" →
  reflect.Get (reflect.Tag sf) (tagName mv) ≠ "" →
  parseTags (reflect.Get (reflect.Tag sf) (tagName mv)) = (tags, None) →
  reflect.PkgPath sf = "" →
  reflect.KindOf (reflect.deref fv) ≠ reflect.Struct →
  (valid mv (reflect.Interface_ (reflect.deref fv)) tags).2 = Ret r →
  validateField rangeOrder mv nested sf fv m
  = Ret (record (displayName sf tags) (firstError r) m).
Proof.
  intros Hskip Hempty Hparse Hexp Hkind Hvalid. unfold validateField.
  rewrite (bool_decide_eq_false_2 _ Hskip), (bool_decide_eq_false_2 _ Hempty).
  cbn [orb andb]. rewrite Hparse.
  rewrite (bool_decide_eq_true_2 _ Hexp), Hvalid.
  unfold displayName, record, firstError.
  destruct (reflect.KindOf (reflect.deref fv)); try done;
    destruct r as [[]|]; try done;
    by match goal with |- context [ErrorArray ?l] => destruct l end.
Qed.

Lemma validateFields_app (rec : reflect.Value → outcome ErrorMap)
    (pre post : list (reflect.StructField * reflect.Value)) (m : ErrorMap) :
  validateFields rangeOrder mv rec (pre ++ post) m
  = m1 ← validateFields rangeOrder mv rec pre m;
    validateFields rangeOrder mv rec post m1.
Proof.
  revert m. induction pre as [|[sf fv] pre IH]; intros m; [done|].
  simpl. destruct (validateField _ _ _ _ _ _); [|done]. apply IH.
Qed.

Lemma Validate_struct (typ : string)
    (fields : list (reflect.StructField * reflect.Value)) :
  Validate rangeOrder mv (reflect.OfStruct typ fields)
  = validateFields rangeOrder mv (Validate rangeOrder mv) fields ∅.
Proof.
  cbn [Validate]. generalize (∅ : gmap string error).
  induction fields as [|[sf fv] fs IH]; intros m; [done|].
  cbn [validateFields].
  match goal with
  | |- context [validateField _ _ (?th fv)] =>
      assert (∀ f, th f = Validate rangeOrder mv (reflect.deref f)) as Hth
  end.
  { fix IHf 1. intros [| | | | | | | |t [e|]|t [e|]|t l]; try reflexivity.
    exact (IHf e). }
  rewrite Hth. destruct (validateField _ _ _ _ _ _); [apply IH|done].
Qed.

(** The first error of the failures of a scalar field is what Validate
    records for it. *)
Lemma firstError_errorArray (errs : list error) :
  firstError (errorArray errs) = head errs.
Proof. by destruct errs. Qed.

End TraversalFacts.

Lemma parseTags_skip : parseTags "-" = ([], None) ∧ parseTags "" = ([], None).
Proof. by split. Qed.

(** ** The order of a range over the nested map does not matter *)

Lemma Validate_ptr (rangeOrder : ErrorMap → list (string * error))
    (mv : Validator) (t : string) (e : reflect.Value) :
  Validate rangeOrder mv (reflect.OfPtr t (Some e))
  = Validate rangeOrder mv (reflect.Interface_ e).
Proof. by destruct e as [| | | | | | | | |? [?|]|]. Qed.

(** Induction on a value, through pointers, interfaces and fields. *)
Lemma Value_nested_ind (P : reflect.Value → Prop) :
  (∀ v, (∀ t e, v ≠ reflect.OfPtr t (Some e)) →
        (∀ t e, v ≠ reflect.OfInterface t (Some e)) →
        (∀ t fields, v ≠ reflect.OfStruct t fields) → P v) →
  (∀ t e, P e → P (reflect.OfPtr t (Some e))) →
  (∀ t e, P e → P (reflect.OfInterface t (Some e))) →
  (∀ t fields, Forall (λ f : reflect.StructField * reflect.Value, P f.2) fields →
               P (reflect.OfStruct t fields)) →
  ∀ v, P v.
Proof.
  intros Hleaf Hptr Hiface Hstruct. fix IH 1.
  intros [| | | | | | | |t [e|]|t [e|]|t fields]; try (by apply Hleaf).
  - apply Hptr, IH.
  - apply Hiface, IH.
  - apply Hstruct. induction fields as [|[sf fv] fields IHf]; constructor.
    + apply IH.
    + apply IHf.
Qed.

Lemma prefix_key_inj (fname : string) : Inj (=) (=) (λ j : string, fname +:+ "." +:+ j).
Proof. intros j1 j2 H. by do 2 apply String.app_inj in H. Qed.

Lemma foldl_insert_union (key : string → string) (l : list (string * error))
    (m : ErrorMap) :
  foldl (λ (acc : ErrorMap) (jk : string * error), <[key jk.1 := jk.2]> acc) m l
  = list_to_map (prod_map key id <$> reverse l) ∪ m.
Proof.
  revert m. induction l as [|[j k] l IH]; intros m.
  - cbn. by rewrite (left_id_L ∅ (∪)).
  - cbn [foldl]. rewrite IH, reverse_cons, fmap_app, list_to_map_app.
    rewrite <- (assoc_L (∪)). f_equal. cbn.
    by rewrite insert_union_singleton_l, insert_empty.
Qed.

Lemma fst_prod_map (key : string → string) (l : list (string * error)) :
  (prod_map key id <$> l).*1 = key <$> l.*1.
Proof. induction l as [|[j k] l IH]; [done|]. cbn. by f_equal. Qed.

Lemma mergeNested_order (ord1 ord2 : ErrorMap → list (string * error))
    (fname : string) (e m : ErrorMap) :
  ord1 e ≡ₚ map_to_list e → ord2 e ≡ₚ map_to_list e →
  mergeNested ord1 fname e m = mergeNested ord2 fname e m.
Proof.
  intros H1 H2. unfold mergeNested.
  rewrite !(foldl_insert_union (λ j, fname +:+ "." +:+ j)). f_equal.
  apply list_to_map_proper.
  - rewrite fst_prod_map. apply NoDup_fmap_2; [apply prefix_key_inj|].
    rewrite reverse_Permutation, H1. apply NoDup_fst_map_to_list.
  - by rewrite !reverse_Permutation, H1, H2.
Qed.

Lemma validateField_order (ord1 ord2 : ErrorMap → list (string * error))
    (mv : Validator) (nested : outcome ErrorMap) (sf : reflect.StructField)
    (fv : reflect.Value) (m : ErrorMap) :
  (∀ e, ord1 e ≡ₚ map_to_list e) → (∀ e, ord2 e ≡ₚ map_to_list e) →
  validateField ord1 mv nested sf fv m = validateField ord2 mv nested sf fv m.
Proof.
  intros H1 H2. unfold validateField.
  destruct (_ || _); [done|].
  destruct (parseTags _) as [tags [err|]]; [done|].
  destruct (reflect.KindOf (reflect.deref fv)); try done.
  destruct (match getByName tags tagAttr with
            | (nameTag, true) => Param nameTag
            | (_, false) => reflect.Name sf
            end) as [|c fname]; [done|].
  destruct (negb _); [done|]. destruct (bool_decide _); [|done].
  destruct nested as [e|]; [|done]. cbn. f_equal. by apply mergeNested_order.
Qed.

(** C10. Validation is a function of the validator and the record alone:
    whatever order the ranges over the nested maps take, on the first run
    and on the second, the runs return equal Error Maps (or panic alike).
    Validate receives the validator and the record and returns the map;
    neither is handed back changed. *)
Theorem Validate_deterministic (ord1 ord2 : ErrorMap → list (string * error))
    (mv : Validator) (v : reflect.Value) :
  (∀ e, ord1 e ≡ₚ map_to_list e) → (∀ e, ord2 e ≡ₚ map_to_list e) →
  Validate ord1 mv v = Validate ord2 mv v.
Proof.
  intros H1 H2.
  cut (Validate ord1 mv (reflect.deref v) = Validate ord2 mv (reflect.deref v)
       ∧ Validate ord1 mv (reflect.Interface_ v) = Validate ord2 mv (reflect.Interface_ v)
       ∧ Validate ord1 mv v = Validate ord2 mv v).
  { by intros (_ & _ & ?). }
  induction v as [v Hp Hi Hs|t e (IHd & IHi & IHv)|t e (IHd & IHi & IHv)|t fields IH]
    using Value_nested_ind.
  - destruct v as [| | | | | | | |t [e|]|t [e|]|t fields]; try done.
    + by destruct (Hp t e).
    + by destruct (Hi t e).
    + by destruct (Hs t fields).
  - split_and!; cbn [reflect.deref reflect.Interface_]; by rewrite ?Validate_ptr.
  - split_and!; by cbn [reflect.deref reflect.Interface_].
  - assert (Validate ord1 mv (reflect.OfStruct t fields)
            = Validate ord2 mv (reflect.OfStruct t fields)) as Heq; [|done].
    rewrite !Validate_struct. generalize (∅ : gmap string error).
    induction IH as [|[sf fv] fields (IHd & _) _ IHfs]; intros m; [done|].
    cbn [validateFields]. cbn [snd] in IHd. rewrite IHd.
    rewrite (validateField_order ord1 ord2) by done.
    destruct (validateField ord2 _ _ _ _ _); [apply IHfs|done].
Qed.

Lemma Validate_deterministic_witness :
  Validate map_to_list sampleRegistry nestedSample
  = Validate (λ e, reverse (map_to_list e)) sampleRegistry nestedSample.
Proof.
  apply (Validate_deterministic map_to_list (λ e, reverse (map_to_list e))
           sampleRegistry nestedSample).
  - intros e. reflexivity.
  - intros e. apply reverse_Permutation.
Defined.

(** ** The built-in rules on kinds they have no case for *)

Section BuiltinFacts.

Variable ParseInt : string → option Z.
Variable ParseUint : string → option Z.
Variable ParseFloat : string → option PrimFloat.float.
Variable Compile : string → option (string → bool).
Variable ParseRFC3339 : string → bool.
Variable MatchBase64 : string → bool.

Lemma compareRule_unsupported (cmpZ : Z → Z → bool)
    (cmpF : PrimFloat.float → PrimFloat.float → bool) (e : error)
    (v : reflect.Value) (param : string) :
  handles "len" v = false →
  builtin.compareRule ParseInt ParseUint ParseFloat cmpZ cmpF e v param
  = Ret (Some ErrUnsupported).
Proof. by value_cases v. Qed.

Lemma typeValid_returns (v : reflect.Value) (param : string) :
  ∃ r, builtin.typeValid ParseRFC3339 MatchBase64 v param = Ret r.
Proof.
  unfold builtin.typeValid, builtin.verdict.
  repeat case_bool_decide; eauto.
Qed.

End BuiltinFacts.

(** What the functions of the built-in registry return on a value of a
    kind they have no case for, whatever the parameter: the bad-parameter
    error from [in], the unsupported-type error from the others.  A nil
    value is a zero value to [notempty].  [type] reads every value through
    its string form and always returns. *)
Lemma builtin_unhandled_kind
    (ParseInt ParseUint : string → option Z)
    (ParseFloat : string → option PrimFloat.float)
    (Compile : string → option (string → bool))
    (ParseRFC3339 MatchBase64 : string → bool)
    (name : string) (fn : ValidationFunc) (v : reflect.Value) (param : string) :
  validationFuncs
    (builtin.NewValidator ParseInt ParseUint ParseFloat Compile ParseRFC3339 MatchBase64)
    !! name = Some fn →
  handles name v = false →
  fn v param = Ret (Some (rejection name))
  ∧ builtin.notZero reflect.Zero param = Ret (Some ErrZeroValue)
  ∧ ∀ v' param', ∃ r, builtin.typeValid ParseRFC3339 MatchBase64 v' param' = Ret r.
Proof.
  intros Hfn Hh. split; [|split; [done|apply typeValid_returns]].
  unfold builtin.NewValidator in Hfn.
  cbn [validationFuncs list_to_map foldr fst snd] in Hfn.
  repeat (rewrite lookup_insert in Hfn; case_decide;
          [subst name; injection Hfn as <-|]);
    [..|by rewrite lookup_empty in Hfn].
  - destruct v as [| | | | | | | | | |typ fields]; try done.
    change (strings.Contains (strings.ToLower typ) "null" = false) in Hh.
    cbn [builtin.notZero]. by rewrite Hh.
  - destruct v as [| | | | | | | | | |typ fields]; try done.
    change (strings.Contains (strings.ToLower typ) "null" = false) in Hh.
    cbn [builtin.notZero]. by rewrite Hh.
  - by apply compareRule_unsupported.
  - by apply compareRule_unsupported.
  - by apply compareRule_unsupported.
  - destruct v as [| | | | |typ s| | | | |]; try done.
    change (bool_decide (typ = "string") = false) in Hh.
    unfold builtin.regex. by rewrite Hh.
  - by value_cases v.
  - done.
Qed.

(** C7. The built-in rules do panic, and [in] answers a kind it has no
    case for with the bad-parameter error.  [in] converts the pieces of its
    parameter as signed integers and then reads the value with [st.Int()],
    which panics on an unsigned kind, although its comment lists uint among
    the kinds it works with; Validate on a record with an unsigned field
    tagged [in=1] panics with it.  [notempty] panics on a struct whose type
    name contains "null" and whose field [Valid] is not a boolean.  On a
    boolean [in] returns the bad-parameter error, where the other rules
    return the unsupported-type error. *)
Theorem builtin_rules_fault
    (rangeOrder : ErrorMap → list (string * error))
    (ParseInt ParseUint : string → option Z)
    (ParseFloat : string → option PrimFloat.float)
    (Compile : string → option (string → bool))
    (ParseRFC3339 MatchBase64 : string → bool) :
  ParseInt "1" = Some 1%Z →
  builtin.in_ ParseInt ParseFloat (reflect.OfUint "uint" reflect.uint 1) "1" = Panic
  ∧ Validate rangeOrder
      (builtin.NewValidator ParseInt ParseUint ParseFloat Compile ParseRFC3339 MatchBase64)
      unsignedRecord
    = Panic
  ∧ builtin.notZero nullFlag "" = Panic
  ∧ builtin.in_ ParseInt ParseFloat (reflect.OfBool "bool" true) "1"
    = Ret (Some ErrBadParameter).
Proof.
  intros H. split_and!; [| |done..].
  - unfold builtin.in_. cbn. unfold builtin.asInt. by rewrite H.
  - vm_compute. by rewrite H.
Qed.

Lemma builtin_rules_fault_witness :
  builtin.in_ (λ s, if String.eqb s "1" then Some 1%Z else None) (λ _, None)
    (reflect.OfUint "uint" reflect.uint 1) "1" = Panic
  ∧ Validate map_to_list
      (builtin.NewValidator (λ s, if String.eqb s "1" then Some 1%Z else None)
         (λ _, None) (λ _, None) (λ _, None) (λ _, false) (λ _, false))
      unsignedRecord
    = Panic
  ∧ builtin.notZero nullFlag "" = Panic
  ∧ builtin.in_ (λ s, if String.eqb s "1" then Some 1%Z else None) (λ _, None)
      (reflect.OfBool "bool" true) "1"
    = Ret (Some ErrBadParameter).
Proof.
  apply (builtin_rules_fault map_to_list
           (λ s, if String.eqb s "1" then Some 1%Z else None)
           (λ _, None) (λ _, None) (λ _, None) (λ _, false) (λ _, false)).
  reflexivity.
Defined.

(** ** Nested records and the attr alias *)

(** What the nested-struct case decides on: the first byte of the name the
    field is reported under, which is the alias when the tag has one. *)
Lemma nested_decision_on_display_name
    (rangeOrder : ErrorMap → list (string * error)) (mv : Validator)
    (nested : outcome ErrorMap) (sf : reflect.StructField) (fv : reflect.Value)
    (m : ErrorMap) (tags : tagList) (c : ascii) (rest : string) :
  reflect.KindOf (reflect.deref fv) = reflect.Struct →
  reflect.Get (reflect.Tag sf) (tagName mv) ≠ "-" →
  parseTags (reflect.Get (reflect.Tag sf) (tagName mv)) = (tags, None) →
  displayName sf tags = String c rest →
  validateField rangeOrder mv nested sf fv m
  = if negb (IsUpperByte c) then Ret m
    else if bool_decide (reflect.PkgPath sf = "")
         then e ← nested; Ret (mergeNested rangeOrder (String c rest) e m)
         else Panic.
Proof.
  intros Hkind Hskip Hparse Hname. unfold validateField.
  rewrite (bool_decide_eq_false_2 _ Hskip), Hkind, Hparse.
  rewrite (bool_decide_eq_true_2 (reflect.Struct = reflect.Struct)) by done.
  rewrite andb_false_r. cbn [orb negb].
  unfold displayName in Hname. by rewrite Hname.
Qed.

(** C2, at the failing input.  The exported record-shaped field [Address]
    holds a zip code that fails its rule.  Without an alias Validate
    descends into it and reports [Address.Zip].  With the alias [addr] the
    test for an upper-case first byte is made on the alias: the field is
    skipped and the failure is not reported, although the declared name
    begins with an upper-case letter. *)
Theorem alias_decides_recursion
    (rangeOrder : ErrorMap → list (string * error))
    (ParseInt ParseUint : string → option Z)
    (ParseFloat : string → option PrimFloat.float)
    (Compile : string → option (string → bool))
    (ParseRFC3339 MatchBase64 : string → bool) :
  Validate map_to_list
    (builtin.NewValidator ParseInt ParseUint ParseFloat Compile ParseRFC3339 MatchBase64)
    (addressRecord "Address" "" "")
  = Ret {[ "Address.Zip" := ErrZeroValue ]}
  ∧ Validate rangeOrder
      (builtin.NewValidator ParseInt ParseUint ParseFloat Compile ParseRFC3339 MatchBase64)
      (addressRecord "Address" "" "attr=addr")
    = Ret ∅.
Proof. split; reflexivity. Qed.

(** The other direction: a field that is not exported, with an upper-case
    alias, passes the test, and [f.Interface()] panics. *)
Example unexported_with_alias_panics
    (rangeOrder : ErrorMap → list (string * error)) :
  Validate rangeOrder sampleRegistry (addressRecord "address" "main" "attr=Addr")
  = Panic
  ∧ Validate rangeOrder sampleRegistry (addressRecord "address" "main" "")
    = Ret ∅.
Proof. split; reflexivity. Qed.

(** ** The package's own tests, on the model *)

(** TestValidator_ParseTags. *)
Example parseTags_test_table :
  parseTags "name=value" = ([mkTag "name" "value"], None)
  ∧ parseTags "under_score=value" = ([mkTag "under_score" "value"], None)
  ∧ parseTags "name1=value1,name2=value2"
    = ([mkTag "name1" "value1"; mkTag "name2" "value2"], None)
  ∧ parseTags "quoted='value'" = ([mkTag "quoted" "value"], None)
  ∧ parseTags "quoted='v,a,l,u,e'" = ([mkTag "quoted" "v,a,l,u,e"], None)
  ∧ parseTags "quoted='v,a,l,u,e',name1=val1"
    = ([mkTag "quoted" "v,a,l,u,e"; mkTag "name1" "val1"], None).
Proof. by split_and!. Qed.

(** The package's Example: a failing minimum under the declared name, and
    a failing [in] under the alias with the text of its msg_ directive. *)
Example Validate_package_example
    (ParseInt ParseUint : string → option Z)
    (ParseFloat : string → option PrimFloat.float)
    (Compile : string → option (string → bool))
    (ParseRFC3339 MatchBase64 : string → bool) :
  ParseInt "3" = Some 3%Z →
  Validate map_to_list
    (builtin.NewValidator ParseInt ParseUint ParseFloat Compile ParseRFC3339 MatchBase64)
    (reflect.OfStruct "struct"
       [ (sampleField "Min" "min=3", sampleInt 1);
         (sampleField "In" "attr=in_field,in='2,3,4,5',msg_in='not one of {param}'",
          reflect.OfString "string" "1") ])
  = Ret (<["in_field" := errors_New "not one of 2,3,4,5"]> (<["Min" := ErrMin]> ∅)).
Proof.
  intros H3. vm_compute. rewrite H3. reflexivity.
Qed.

(** Rows of TestValidator_Validate that need no more of the host than the
    conversion of "3". *)
Example Validate_package_test
    (ParseInt ParseUint : string → option Z)
    (ParseFloat : string → option PrimFloat.float)
    (Compile : string → option (string → bool))
    (ParseRFC3339 MatchBase64 : string → bool) :
  ParseInt "3" = Some 3%Z →
  ∃ m,
    Validate map_to_list
      (builtin.NewValidator ParseInt ParseUint ParseFloat Compile ParseRFC3339 MatchBase64)
      (reflect.OfStruct "struct"
         [ (sampleField "Min" "min=3", sampleInt 1);
           (sampleField "Empty" "empty=''", sampleInt 0);
           (sampleField "CustomMsg" "min=3,msg_min=msg1{param}msg2", sampleInt 1);
           (sampleField "CustomAlias" "min=3,attr=custom_alias", sampleInt 1) ])
    = Ret m
    ∧ m !! "Min" = Some ErrMin
    ∧ m !! "Empty" = Some ErrZeroValue
    ∧ Error <$> m !! "CustomMsg" = Some "msg13msg2"
    ∧ m !! "custom_alias" = Some ErrMin
    ∧ m !! "CustomAlias" = None.
Proof.
  intros H3. eexists. split.
  - vm_compute. rewrite H3. reflexivity.
  - by split_and!.
Qed.

(** ** Validate, field by field *)

Lemma valid_ptr (mv : Validator) (t : string) (e : reflect.Value) (tags : tagList) :
  valid mv (reflect.OfPtr t (Some e)) tags = valid mv (reflect.Interface_ e) tags.
Proof. by destruct e as [| | | | | | | | |? [?|]|]. Qed.

Lemma pointee_ptr (t : string) (e : reflect.Value) :
  pointee (reflect.OfPtr t (Some e)) = pointee (reflect.Interface_ e).
Proof. by destruct e as [| | | | | | | | |? [?|]|]. Qed.

(** A value that does not end in a struct is validated as what its
    pointers lead to. *)
Lemma valid_nonstruct (mv : Validator) (v : reflect.Value) (tags : tagList) :
  reflect.KindOf (pointee v) ≠ reflect.Struct →
  valid mv v tags = validateVar mv (pointee v) tags.
Proof.
  enough ((reflect.KindOf (pointee v) ≠ reflect.Struct →
           valid mv v tags = validateVar mv (pointee v) tags)
          ∧ (reflect.KindOf (pointee (reflect.Interface_ v)) ≠ reflect.Struct →
             valid mv (reflect.Interface_ v) tags
             = validateVar mv (pointee (reflect.Interface_ v)) tags))
    as [H _]; [done|].
  induction v as [v Hptr Hiface Hstruct|t e [_ IH]|t e [IH _]|t fields _]
    using Value_nested_ind.
  - destruct v as [|? ?|? [] ?|? [] ?|? [] ?|? ?|? [] ?|? []|? [?|]|? [?|]|? ?];
      try (by split);
      first [destruct (Hptr _ _ eq_refl)|destruct (Hiface _ _ eq_refl)
            |destruct (Hstruct _ _ eq_refl)].
  - cbn [reflect.Interface_]. rewrite valid_ptr, pointee_ptr. by split.
  - by split.
  - by split.
Qed.

Lemma validated_not_struct (fv : reflect.Value) :
  reflect.KindOf (validated fv) ≠ reflect.Struct →
  reflect.KindOf (reflect.deref fv) ≠ reflect.Struct.
Proof.
  unfold validated.
  destruct (reflect.deref fv) as [|? ?|? [] ?|? [] ?|? [] ?|? ?|? [] ?|? []|? ?|? ?|? ?];
    try done.
Qed.

(** An exported field that does not end in a struct: what Validate records
    for it is the first error of what validateVar returns. *)
Lemma validateField_plain (rangeOrder : ErrorMap → list (string * error))
    (mv : Validator) (nested : outcome ErrorMap) (sf : reflect.StructField)
    (fv : reflect.Value) (m : ErrorMap) (tags : tagList) (r : option error) :
  parseTags (reflect.Get (reflect.Tag sf) (tagName mv)) = (tags, None) →
  reflect.PkgPath sf = "" →
  reflect.KindOf (validated fv) ≠ reflect.Struct →
  (validateVar mv (validated fv) tags).2 = Ret r →
  validateField rangeOrder mv nested sf fv m
  = Ret (record (displayName sf tags) (firstError r) m).
Proof.
  intros Hparse Hexp Hkind Hvar.
  pose proof (validated_not_struct _ Hkind) as Hderef.
  destruct (decide (reflect.Get (reflect.Tag sf) (tagName mv) = "-")) as [Hskip|Hskip].
  { rewrite Hskip in Hparse. destruct parseTags_skip as [Hp _].
    rewrite Hp in Hparse. injection Hparse as <-. injection Hvar as <-.
    unfold validateField. by rewrite Hskip. }
  destruct (decide (reflect.Get (reflect.Tag sf) (tagName mv) = "")) as [Hempty|Hempty].
  { rewrite Hempty in Hparse. destruct parseTags_skip as [_ Hp].
    rewrite Hp in Hparse. injection Hparse as <-. injection Hvar as <-.
    unfold validateField.
    by rewrite Hempty, (bool_decide_eq_false_2 _ Hderef). }
  apply validateField_scalar; try done.
  by rewrite valid_nonstruct.
Qed.







(** * Further properties of the package *)

(** ** The parser *)

(** parseGroups returns an error together with the empty list only, and
    the error is the unknown-tag error. *)
Lemma parseGroups_error (groups : list (list string)) (acc tags : tagList)
    (e : error) :
  parseGroups groups acc = (tags, Some e) → tags = [] ∧ e = ErrUnknownTag.
Proof.
  revert acc. induction groups as [|g groups IH]; intros acc; simpl; [done|].
  case_bool_decide; [by intros [= <- <-]|apply IH].
Qed.

(** X1. Whatever the annotation, parseTags returns either no error and
    directives that each have a non-empty name, name and parameter free of
    the quote and of the equals sign and with no blank at either end, or
    the unknown-tag error together with the empty list. *)
Theorem parseTags_result (s : string) :
  (parseTags s).2 = None ∧ Forall parsedTag (parseTags s).1
  ∨ parseTags s = ([], Some ErrUnknownTag).
Proof.
  destruct (parseTags s) as [tags [e|]] eqn:Hp.
  - right. unfold parseTags in Hp. by apply parseGroups_error in Hp as [-> ->].
  - left. split; [done|]. unfold parseTags, FindAllStringSubmatch in Hp.
    apply parseGroups_inv in Hp as (new & -> & Hnew);
      [|apply allMatches_tagRegexp].
    done.
Qed.

(** X2. Writing clean directives out as [name=param] pieces separated by
    commas, a parameter with a comma between single quotes, and parsing the
    text gives the directives back; hence two clean directive lists with
    the same text are the same list. *)
Theorem rejoin_parse_inverse (tags tags' : tagList) :
  Forall cleanTag tags → Forall cleanTag tags' →
  parseTags (rejoin tags) = (tags, None)
  ∧ (rejoin tags = rejoin tags' → tags = tags').
Proof.
  intros H H'. split; [by apply parseTags_rejoin|].
  intros Heq. apply parseTags_rejoin in H, H'.
  rewrite Heq in H. congruence.
Qed.

Lemma rejoin_parse_inverse_witness :
  parseTags (rejoin [mkTag "in" "a,b"; mkTag "min" "3"])
  = ([mkTag "in" "a,b"; mkTag "min" "3"], None)
  ∧ (rejoin [mkTag "in" "a,b"; mkTag "min" "3"] = rejoin [mkTag "in" "a,b"; mkTag "min" "3"]
     → [mkTag "in" "a,b"; mkTag "min" "3"] = [mkTag "in" "a,b"; mkTag "min" "3"]).
Proof.
  apply (rejoin_parse_inverse [mkTag "in" "a,b"; mkTag "min" "3"]
           [mkTag "in" "a,b"; mkTag "min" "3"]);
    repeat constructor; discriminate.
Defined.

(** X3. getByName returns the first directive of the list that has the
    name; it reports not found, with the zero directive, exactly when no
    directive has it. *)
Theorem getByName_first (tl : tagList) (name : string) :
  match getByName tl name with
  | (t, true) =>
      ∃ pre post, tl = pre ++ t :: post ∧ Name t = name
                  ∧ Forall (λ u, Name u ≠ name) pre
  | (t, false) => t = mkTag "" "" ∧ Forall (λ u, Name u ≠ name) tl
  end.
Proof.
  induction tl as [|t tl IH]; simpl; [done|].
  case_bool_decide as Hname.
  - by exists [], tl.
  - destruct (getByName tl name) as [u [|]].
    + destruct IH as (pre & post & -> & Hu & Hpre).
      exists (t :: pre), post. split_and!; [done..|]. by constructor.
    + destruct IH as [-> Htl]. split; [done|]. by constructor.
Qed.

(** ** The registry *)

Lemma msg_name_neq (name : string) : name ≠ "msg_" +:+ name.
Proof.
  intros H. apply (f_equal String.length) in H.
  rewrite length_app_str in H. simpl in H. lia.
Qed.

Lemma alter_absent {A : Type} (f : A → A) (m : gmap nat A) (r : nat) :
  m !! r = None → alter f r m = m.
Proof.
  intros Hr. apply map_eq. intros i. destruct (decide (i = r)) as [->|Hne].
  - by rewrite lookup_alter_eq, Hr.
  - by rewrite lookup_alter_ne.
Qed.

(** X4. On a validator whose map of functions is allocated, as
    NewValidator and WithTag build it, SetValidationFunc with a non-empty
    name returns no error; after it a lookup of the name finds the function
    given, and nothing when the function given is nil; the entries under
    other names and the tag name are as before. *)
Theorem SetValidationFunc_lookup (h : ptr.Heap) (p : nat) (mv : Validator)
    (name other : string) (vf : option ValidationFunc) :
  ptr.load h p = Some mv →
  name ≠ "" →
  ∃ h' mv',
    ptr.SetValidationFunc p name vf h = Ret (None, h')
    ∧ ptr.load h' p = Some mv'
    ∧ validationFuncs mv' !! name = vf
    ∧ (other ≠ name → validationFuncs mv' !! other = validationFuncs mv !! other)
    ∧ tagName mv' = tagName mv.
Proof.
  unfold ptr.load. intros Hload Hname.
  destruct (ptr.structs h !! p) as [[tg r]|] eqn:Hp; [|done].
  cbn in Hload. destruct (ptr.maps h !! r) as [m|] eqn:Hr; [|done].
  injection Hload as <-. unfold ptr.SetValidationFunc.
  rewrite (bool_decide_eq_false_2 _ Hname), Hp.
  destruct vf as [f|].
  - rewrite Hr. eexists _, (mkValidator tg (<[name := f]> m)).
    split; [done|]. unfold ptr.load. cbn. rewrite Hp. cbn.
    rewrite lookup_insert_eq. split_and!; [done| |by intros; rewrite lookup_insert_ne|done].
    by rewrite lookup_insert_eq.
  - eexists _, (mkValidator tg (delete name m)).
    split; [done|]. unfold ptr.load. cbn. rewrite Hp. cbn.
    rewrite lookup_alter_eq, Hr. split_and!; [done| |by intros; rewrite lookup_delete_ne|done].
    by rewrite lookup_delete_eq.
Qed.

Lemma SetValidationFunc_lookup_witness :
  ∃ h' mv',
    ptr.SetValidationFunc 0 "min" None
      (ptr.mkHeap {[ 0 := ("validate", 0) ]} {[ 0 := validationFuncs sampleRegistry ]})
    = Ret (None, h')
    ∧ ptr.load h' 0 = Some mv'
    ∧ validationFuncs mv' !! "min" = None
    ∧ ("max" ≠ "min" →
       validationFuncs mv' !! "max" = validationFuncs sampleRegistry !! "max")
    ∧ tagName mv' = tagName sampleRegistry.
Proof.
  apply (SetValidationFunc_lookup
           (ptr.mkHeap {[ 0 := ("validate", 0) ]} {[ 0 := validationFuncs sampleRegistry ]})
           0 sampleRegistry "min" "max" None); [reflexivity|discriminate].
Defined.

(** X5. On a validator whose map of functions is allocated: a directive
    whose rule was removed with SetValidationFunc(name, nil) is an unknown
    tag to validateVar, unless the name is reserved; a directive whose rule
    was set is dispatched to the function set, and the function's error is
    returned in an array. *)
Theorem SetValidationFunc_then_validateVar (h : ptr.Heap) (p : nat)
    (mv : Validator) (v : reflect.Value) (name param : string)
    (f : ValidationFunc) (r : option error) :
  ptr.load h p = Some mv →
  name ≠ "" → reserved name = false → f v param = Ret r →
  (∃ h' mv',
     ptr.SetValidationFunc p name None h = Ret (None, h')
     ∧ ptr.load h' p = Some mv'
     ∧ validateVar mv' v [mkTag name param] = ([], Ret (Some ErrUnknownTag)))
  ∧ (∃ h' mv',
       ptr.SetValidationFunc p name (Some f) h = Ret (None, h')
       ∧ ptr.load h' p = Some mv'
       ∧ validateVar mv' v [mkTag name param]
         = ([mkTag name param], Ret (errorArray (option_list r)))).
Proof.
  unfold ptr.load. intros Hload Hname Hres Hf.
  destruct (ptr.structs h !! p) as [[tg r0]|] eqn:Hp; [|done].
  cbn in Hload. destruct (ptr.maps h !! r0) as [m|] eqn:Hr; [|done].
  injection Hload as <-. unfold ptr.SetValidationFunc.
  rewrite (bool_decide_eq_false_2 _ Hname), Hp, Hr. split.
  - eexists _, (mkValidator tg (delete name m)). split; [done|].
    unfold ptr.load. cbn. rewrite Hp. cbn. rewrite lookup_alter_eq, Hr.
    split; [done|]. unfold validateVar. cbn [validateVarLoop validationFuncs Name Param].
    rewrite lookup_delete_eq.
    unfold reserved in Hres. unfold strings.HasPrefix in *. by rewrite Hres.
  - eexists _, (mkValidator tg (<[name := f]> m)). split; [done|].
    unfold ptr.load. cbn. rewrite Hp. cbn. rewrite lookup_insert_eq.
    split; [done|].
    unfold validateVar. cbn [validateVarLoop validationFuncs getByName Name Param].
    rewrite lookup_insert_eq, Hf. destruct r as [e|]; [|done].
    rewrite bool_decide_eq_false_2 by apply msg_name_neq. done.
Qed.

Lemma SetValidationFunc_then_validateVar_witness :
  (∃ h' mv',
     ptr.SetValidationFunc 0 "min" None
       (ptr.mkHeap {[ 0 := ("validate", 0) ]} {[ 0 := validationFuncs sampleRegistry ]})
     = Ret (None, h')
     ∧ ptr.load h' 0 = Some mv'
     ∧ validateVar mv' (sampleInt 1) [mkTag "min" "3"]
       = ([], Ret (Some ErrUnknownTag)))
  ∧ (∃ h' mv',
       ptr.SetValidationFunc 0 "min" (Some alwaysMax)
         (ptr.mkHeap {[ 0 := ("validate", 0) ]} {[ 0 := validationFuncs sampleRegistry ]})
       = Ret (None, h')
       ∧ ptr.load h' 0 = Some mv'
       ∧ validateVar mv' (sampleInt 1) [mkTag "min" "3"]
         = ([mkTag "min" "3"], Ret (Some (ErrorArray [ErrMax])))).
Proof.
  apply (SetValidationFunc_then_validateVar
           (ptr.mkHeap {[ 0 := ("validate", 0) ]} {[ 0 := validationFuncs sampleRegistry ]})
           0 sampleRegistry (sampleInt 1) "min" "3" alwaysMax (Some ErrMax));
    [reflexivity|discriminate|reflexivity|reflexivity].
Defined.

(** X29. On a validator whose map of functions is nil, as the zero
    Validator has it, SetValidationFunc with a non-empty name and a function
    panics at the assignment to the map; with nil for the function it
    returns no error and changes nothing; with the empty name it returns
    the error and changes nothing, function or not. *)
Theorem SetValidationFunc_nil_map (h : ptr.Heap) (p r : nat) (tag name : string)
    (f : ValidationFunc) (vf : option ValidationFunc) :
  ptr.structs h !! p = Some (tag, r) →
  ptr.maps h !! r = None →
  name ≠ "" →
  ptr.SetValidationFunc p name (Some f) h = Panic
  ∧ ptr.SetValidationFunc p name None h = Ret (None, h)
  ∧ ptr.SetValidationFunc p "" vf h
    = Ret (Some (errors_New "name cannot be empty"), h).
Proof.
  intros Hp Hr Hname. unfold ptr.SetValidationFunc.
  rewrite (bool_decide_eq_false_2 _ Hname), Hp, Hr.
  split_and!; [done| |done].
  rewrite alter_absent by done. by destruct h.
Qed.

Lemma SetValidationFunc_nil_map_witness :
  ptr.SetValidationFunc 0 "min" (Some alwaysMin)
    (ptr.mkHeap {[ 0 := ("validate", 0) ]} ∅) = Panic
  ∧ ptr.SetValidationFunc 0 "min" None (ptr.mkHeap {[ 0 := ("validate", 0) ]} ∅)
    = Ret (None, ptr.mkHeap {[ 0 := ("validate", 0) ]} ∅)
  ∧ ptr.SetValidationFunc 0 "" (Some alwaysMin)
      (ptr.mkHeap {[ 0 := ("validate", 0) ]} ∅)
    = Ret (Some (errors_New "name cannot be empty"),
           ptr.mkHeap {[ 0 := ("validate", 0) ]} ∅).
Proof.
  apply (SetValidationFunc_nil_map (ptr.mkHeap {[ 0 := ("validate", 0) ]} ∅)
           0 0 "validate" "min" alwaysMin (Some alwaysMin));
    [reflexivity|reflexivity|discriminate].
Defined.

(** ** validateVar *)

Lemma validateVarLoop_shape (mv : Validator) (v : reflect.Value)
    (tags rest : tagList) (errs : list error) (r : option error) :
  (validateVarLoop mv v tags rest errs).2 = Ret r →
  r = Some ErrUnknownTag
  ∨ ∃ new, r = errorArray (errs ++ new) ∧ length new ≤ length rest.
Proof.
  revert errs. induction rest as [|t rest IH]; intros errs; simpl.
  - intros [= <-]. right. exists []. by rewrite app_nil_r.
  - destruct (validationFuncs mv !! Name t) as [fn|].
    + destruct (fn v (Param t)) as [[err|]|]; simpl; [| |done].
      * intros [->|(new & -> & Hlen)]%IH; [by left|right].
        eexists (_ :: new). rewrite <- app_assoc. split; [done|]. simpl. lia.
      * intros [->|(new & -> & Hlen)]%IH; [by left|right].
        exists new. split; [done|]. lia.
    + destruct (_ || _); simpl.
      * intros [->|(new & -> & Hlen)]%IH; [by left|right].
        exists new. split; [done|]. lia.
      * intros [= <-]. by left.
Qed.

(** X6. When validateVar returns, the error is nil, the bare unknown-tag
    error, or a non-empty array that holds at most one error for each
    directive of the list. *)
Theorem validateVar_result_shape (mv : Validator) (v : reflect.Value)
    (tags : tagList) (r : option error) :
  (validateVar mv v tags).2 = Ret r →
  r = None ∨ r = Some ErrUnknownTag
  ∨ ∃ e errs, r = Some (ErrorArray (e :: errs))
              ∧ length (e :: errs) ≤ length tags.
Proof.
  intros [->|(new & -> & Hlen)]%validateVarLoop_shape; [by right; left|].
  destruct new as [|e errs]; [by left|].
  right; right. by exists e, errs.
Qed.

Lemma validateVar_result_shape_witness :
  Some (ErrorArray [ErrMin; ErrMax]) = None
  ∨ Some (ErrorArray [ErrMin; ErrMax]) = Some ErrUnknownTag
  ∨ ∃ e errs, Some (ErrorArray [ErrMin; ErrMax]) = Some (ErrorArray (e :: errs))
              ∧ length (e :: errs) ≤ length [mkTag "min" "3"; mkTag "max" "0"].
Proof.
  apply (validateVar_result_shape sampleRegistry (sampleInt 1)
           [mkTag "min" "3"; mkTag "max" "0"]).
  reflexivity.
Defined.

(** *** The text of a custom message *)

Lemma prefix_cons_neq (c d : ascii) (s t : string) :
  c ≠ d → String.prefix (String c s) (String d t) = false.
Proof. intros H. cbn [String.prefix]. by destruct (ascii_dec c d). Qed.

Lemma replaceFrom_noBrace (s new : string) :
  noBrace s = true → strings.replaceFrom 0 s "{param}" new = s.
Proof.
  induction s as [|c s IH]; [done|].
  unfold noBrace. cbn [Str.all]. intros [Hc Hs]%andb_true_iff.
  cbn [strings.replaceFrom].
  rewrite prefix_cons_neq.
  - f_equal. by apply IH.
  - intros <-. by rewrite Ascii.eqb_refl in Hc.
Qed.

Lemma replaceFrom_placeholder (pre post new : string) :
  noBrace pre = true →
  strings.replaceFrom 0 (pre +:+ "{param}" +:+ post) "{param}" new
  = pre +:+ new +:+ strings.replaceFrom 0 post "{param}" new.
Proof.
  induction pre as [|c pre IH].
  - intros _. rewrite !app_empty_l. by destruct post.
  - unfold noBrace. cbn [Str.all]. intros [Hc Hs]%andb_true_iff.
    rewrite !app_cons. cbn [strings.replaceFrom].
    rewrite prefix_cons_neq.
    + f_equal. by apply IH.
    + intros <-. by rewrite Ascii.eqb_refl in Hc.
Qed.

Lemma HasPrefix_app (pfx s : string) : strings.HasPrefix (pfx +:+ s) pfx = true.
Proof.
  unfold strings.HasPrefix. induction pfx as [|c pfx IH].
  - by destruct s.
  - rewrite app_cons. cbn [String.prefix]. by destruct (ascii_dec c c).
Qed.



(** ** Pointers in front of a value *)

(** X8. Validate looks through any chain of non-nil pointers: a value
    that ends in a struct is validated as that struct; any other value,
    nil and the nil pointer among them, yields the map with the single
    entry [_summary] holding the unsupported-type error, and no panic. *)
Theorem Validate_pointee (rangeOrder : ErrorMap → list (string * error))
    (mv : Validator) (v : reflect.Value) :
  Validate rangeOrder mv v
  = if bool_decide (reflect.KindOf (pointee v) = reflect.Struct)
    then Validate rangeOrder mv (pointee v)
    else Ret {[ "_summary" := ErrUnsupported ]}.
Proof.
  enough (Validate rangeOrder mv v
          = (if bool_decide (reflect.KindOf (pointee v) = reflect.Struct)
             then Validate rangeOrder mv (pointee v)
             else Ret {[ "_summary" := ErrUnsupported ]})
          ∧ Validate rangeOrder mv (reflect.Interface_ v)
            = (if bool_decide (reflect.KindOf (pointee (reflect.Interface_ v))
                               = reflect.Struct)
               then Validate rangeOrder mv (pointee (reflect.Interface_ v))
               else Ret {[ "_summary" := ErrUnsupported ]})) as [H _]; [done|].
  induction v as [v Hptr Hiface Hstruct|t e [_ IH]|t e [IH _]|t fields _]
    using Value_nested_ind.
  - destruct v as [|? ?|? [] ?|? [] ?|? [] ?|? ?|? [] ?|? []|? [?|]|? [?|]|? ?];
      try (by split);
      first [destruct (Hptr _ _ eq_refl)|destruct (Hiface _ _ eq_refl)
            |destruct (Hstruct _ _ eq_refl)].
  - cbn [reflect.Interface_]. rewrite Validate_ptr, pointee_ptr. by split.
  - split; [|done]. cbn [pointee reflect.KindOf Validate].
    by rewrite bool_decide_eq_false_2.
  - cbn [reflect.Interface_ pointee reflect.KindOf].
    by rewrite bool_decide_eq_true_2.
Qed.

(** X9. valid looks through any chain of non-nil pointers as well: a
    value that ends in a struct is answered with the unsupported-type
    error and no rule is called; any other is handed to validateVar. *)
Theorem valid_pointee (mv : Validator) (v : reflect.Value) (tags : tagList) :
  valid mv v tags
  = if bool_decide (reflect.KindOf (pointee v) = reflect.Struct)
    then ([], Ret (Some ErrUnsupported))
    else validateVar mv (pointee v) tags.
Proof.
  enough (valid mv v tags
          = (if bool_decide (reflect.KindOf (pointee v) = reflect.Struct)
             then ([], Ret (Some ErrUnsupported))
             else validateVar mv (pointee v) tags)
          ∧ valid mv (reflect.Interface_ v) tags
            = (if bool_decide (reflect.KindOf (pointee (reflect.Interface_ v))
                               = reflect.Struct)
               then ([], Ret (Some ErrUnsupported))
               else validateVar mv (pointee (reflect.Interface_ v)) tags))
    as [H _]; [done|].
  induction v as [v Hptr Hiface Hstruct|t e [_ IH]|t e [IH _]|t fields _]
    using Value_nested_ind.
  - destruct v as [|? ?|? [] ?|? [] ?|? [] ?|? ?|? [] ?|? []|? [?|]|? [?|]|? ?];
      try (by split);
      first [destruct (Hptr _ _ eq_refl)|destruct (Hiface _ _ eq_refl)
            |destruct (Hstruct _ _ eq_refl)].
  - cbn [reflect.Interface_]. rewrite valid_ptr, pointee_ptr. by split.
  - split; [|done]. cbn [pointee reflect.KindOf valid].
    by rewrite bool_decide_eq_false_2.
  - cbn [reflect.Interface_ pointee reflect.KindOf].
    by rewrite bool_decide_eq_true_2.
Qed.

(** ** Fields the traversal passes over *)

Lemma validateField_skipped (rangeOrder : ErrorMap → list (string * error))
    (mv : Validator) (nested : outcome ErrorMap) (sf : reflect.StructField)
    (fv : reflect.Value) (m : ErrorMap) :
  skipped mv (sf, fv) = true →
  validateField rangeOrder mv nested sf fv m = Ret m.
Proof. unfold skipped, validateField. cbn [fst snd]. by intros ->. Qed.

(** X10. The fields Validate passes over, those tagged with the dash and
    those without a tag under the validator's tag name that are not structs
    behind their pointers, can be taken out of a record without a change in
    the result; they are not looked at, exported or not.  A record of such
    fields only validates to the empty map. *)
Theorem Validate_skipped_fields (rangeOrder : ErrorMap → list (string * error))
    (mv : Validator) (typ : string)
    (fields : list (reflect.StructField * reflect.Value)) :
  Validate rangeOrder mv (reflect.OfStruct typ fields)
  = Validate rangeOrder mv
      (reflect.OfStruct typ (filter (λ f, skipped mv f = false) fields))
  ∧ (forallb (skipped mv) fields = true →
     Validate rangeOrder mv (reflect.OfStruct typ fields) = Ret ∅).
Proof.
  rewrite !Validate_struct. split.
  - generalize (∅ : gmap string error).
    induction fields as [|[sf fv] fields IH]; intros m; [done|].
    destruct (skipped mv (sf, fv)) eqn:Hs.
    + rewrite filter_cons_False by (by rewrite Hs).
      cbn [validateFields]. rewrite validateField_skipped by done. apply IH.
    + rewrite filter_cons_True by done. cbn [validateFields].
      destruct (validateField _ _ _ _ _ _); [apply IH|done].
  - generalize (∅ : gmap string error).
    induction fields as [|[sf fv] fields IH]; intros m; [done|].
    cbn [forallb]. intros [Hs Hrest]%andb_true_iff.
    cbn [validateFields]. rewrite validateField_skipped by done. by apply IH.
Qed.

Lemma Validate_skipped_fields_witness :
  Validate map_to_list sampleRegistry untaggedRecord = Ret ∅.
Proof.
  apply (proj2 (Validate_skipped_fields map_to_list sampleRegistry "main.Plain"
                  [ (sampleField "Skipped" "-", reflect.OfStruct "main.Inner" []);
                    (reflect.mkStructField "hidden" "main" [], sampleInt 0) ])).
  reflexivity.
Defined.

(** X11. A tag that does not parse is recorded under the name the field
    is declared with, as the unknown-tag error, whatever the field holds
    and whether it is exported or not; no rule is called and nothing
    panics. *)
Theorem validateField_parse_error (rangeOrder : ErrorMap → list (string * error))
    (mv : Validator) (nested : outcome ErrorMap) (sf : reflect.StructField)
    (fv : reflect.Value) (m : ErrorMap) :
  reflect.Get (reflect.Tag sf) (tagName mv) ≠ "-" →
  (parseTags (reflect.Get (reflect.Tag sf) (tagName mv))).2 ≠ None →
  validateField rangeOrder mv nested sf fv m
  = Ret (<[reflect.Name sf := ErrUnknownTag]> m).
Proof.
  intros Hdash Hparse. unfold validateField.
  rewrite (bool_decide_eq_false_2 _ Hdash).
  rewrite (bool_decide_eq_false_2
             (reflect.Get (reflect.Tag sf) (tagName mv) = "")).
  2: { intros Hempty. rewrite Hempty in Hparse. by apply Hparse. }
  destruct (parseTags _) as [tags [e|]] eqn:Hp; [|done].
  unfold parseTags in Hp. by apply parseGroups_error in Hp as [-> ->].
Qed.

Lemma validateField_parse_error_witness :
  validateField map_to_list sampleRegistry Panic
    (reflect.mkStructField "zip" "main" [("validate", " =3,attr=Zip")])
    (reflect.OfStruct "main.Zip" []) ∅
  = Ret {[ "zip" := ErrUnknownTag ]}.
Proof.
  apply (validateField_parse_error map_to_list sampleRegistry Panic
           (reflect.mkStructField "zip" "main" [("validate", " =3,attr=Zip")])
           (reflect.OfStruct "main.Zip" []) ∅); [discriminate|].
  vm_compute. discriminate.
Defined.

(** ** Nested records *)

Lemma mergeNested_kmap (rangeOrder : ErrorMap → list (string * error))
    (fname : string) (e m : ErrorMap) :
  rangeOrder e ≡ₚ map_to_list e →
  mergeNested rangeOrder fname e m = kmap (λ j, fname +:+ "." +:+ j) e ∪ m.
Proof.
  intros Hord. unfold mergeNested, kmap.
  rewrite (foldl_insert_union (λ j, fname +:+ "." +:+ j)). f_equal.
  apply list_to_map_proper.
  - rewrite fst_prod_map. apply NoDup_fmap_2; [apply prefix_key_inj|].
    rewrite reverse_Permutation, Hord. apply NoDup_fst_map_to_list.
  - by rewrite reverse_Permutation, Hord.
Qed.

(** X12. The loop that copies the errors of a nested record into the
    outer map, in whatever order the range visits them, leaves the outer
    map with every nested entry under the key made of the field's name, a
    dot and the nested key; such an entry replaces an older one under that
    key, and every other key keeps what it had. *)
Theorem mergeNested_prefixed (rangeOrder : ErrorMap → list (string * error))
    (fname : string) (e m : ErrorMap) :
  rangeOrder e ≡ₚ map_to_list e →
  mergeNested rangeOrder fname e m = kmap (λ j, fname +:+ "." +:+ j) e ∪ m
  ∧ (∀ j, mergeNested rangeOrder fname e m !! (fname +:+ "." +:+ j)
          = match e !! j with
            | Some k => Some k
            | None => m !! (fname +:+ "." +:+ j)
            end)
  ∧ (∀ key, (∀ j, key ≠ fname +:+ "." +:+ j) →
            mergeNested rangeOrder fname e m !! key = m !! key).
Proof.
  intros Hord. rewrite mergeNested_kmap by done.
  pose proof (prefix_key_inj fname) as Hinj. split_and!; [done| |].
  - intros j. rewrite lookup_union, (lookup_kmap (λ j, fname +:+ "." +:+ j)).
    by destruct (e !! j), (m !! _).
  - intros key Hkey. rewrite lookup_union.
    assert (kmap (M2 := gmap string) (λ j, fname +:+ "." +:+ j) e !! key = None)
      as ->.
    { apply (lookup_kmap_None (λ j, fname +:+ "." +:+ j)). intros j Hj.
      by destruct (Hkey j). }
    by destruct (m !! key).
Qed.

Lemma mergeNested_prefixed_witness :
  mergeNested map_to_list "Address" {[ "Zip" := ErrMin ]} {[ "Name" := ErrMax ]}
  = kmap (λ j, "Address" +:+ "." +:+ j) ({[ "Zip" := ErrMin ]} : ErrorMap)
    ∪ {[ "Name" := ErrMax ]}
  ∧ (∀ j, mergeNested map_to_list "Address" {[ "Zip" := ErrMin ]}
            {[ "Name" := ErrMax ]} !! ("Address" +:+ "." +:+ j)
          = match ({[ "Zip" := ErrMin ]} : ErrorMap) !! j with
            | Some k => Some k
            | None => ({[ "Name" := ErrMax ]} : ErrorMap) !! ("Address" +:+ "." +:+ j)
            end)
  ∧ (∀ key, (∀ j, key ≠ "Address" +:+ "." +:+ j) →
            mergeNested map_to_list "Address" {[ "Zip" := ErrMin ]}
              {[ "Name" := ErrMax ]} !! key
            = ({[ "Name" := ErrMax ]} : ErrorMap) !! key).
Proof.
  apply (mergeNested_prefixed map_to_list "Address" {[ "Zip" := ErrMin ]}
           {[ "Name" := ErrMax ]}).
  reflexivity.
Defined.



(** ** The built-in rules *)

Section BuiltinRules.

Variable ParseInt : string → option Z.
Variable ParseUint : string → option Z.
Variable ParseFloat : string → option PrimFloat.float.
Variable Compile : string → option (string → bool).

Lemma compareRule_returns (cmpZ : Z → Z → bool)
    (cmpF : PrimFloat.float → PrimFloat.float → bool) (e : error)
    (v : reflect.Value) (param : string) :
  ∃ r, builtin.compareRule ParseInt ParseUint ParseFloat cmpZ cmpF e v param = Ret r
       ∧ r ∈ [None; Some e; Some ErrBadParameter; Some ErrUnsupported].
Proof.
  unfold builtin.compareRule, builtin.asInt, builtin.asUint, builtin.asFloat,
    builtin.verdict.
  destruct v;
    repeat match goal with
           | |- context [match ?x with _ => _ end] => destruct x
           end;
    eexists; (split; [reflexivity|]); set_solver.
Qed.

(** X14. [len], [min], [max] and [regexp] return on every value and every
    parameter, unlike [notempty] and [in]; what they return is nil, the
    rule's own error, the bad-parameter error or the unsupported-type
    error. *)
Theorem compare_rules_return (v : reflect.Value) (param : string) :
  (∃ r, builtin.length ParseInt ParseUint ParseFloat v param = Ret r
        ∧ r ∈ [None; Some ErrLen; Some ErrBadParameter; Some ErrUnsupported])
  ∧ (∃ r, builtin.min ParseInt ParseUint ParseFloat v param = Ret r
          ∧ r ∈ [None; Some ErrMin; Some ErrBadParameter; Some ErrUnsupported])
  ∧ (∃ r, builtin.max ParseInt ParseUint ParseFloat v param = Ret r
          ∧ r ∈ [None; Some ErrMax; Some ErrBadParameter; Some ErrUnsupported])
  ∧ (∃ r, builtin.regex Compile v param = Ret r
          ∧ r ∈ [None; Some ErrRegexp; Some ErrBadParameter; Some ErrUnsupported]).
Proof.
  split_and!; try apply compareRule_returns.
  unfold builtin.regex, builtin.verdict.
  destruct v;
    repeat match goal with
           | |- context [match ?x with _ => _ end] => destruct x
           end;
    eexists; (split; [reflexivity|]); set_solver.
Qed.

(** X15. On a value that is not a floating-point number, [len] with a
    parameter accepts exactly when [min] and [max] with that parameter
    both accept: for a string and for an array, map or slice on the length,
    for an integer on the value; a parameter that does not convert and a
    kind without a case are refused by all three. *)
Theorem length_iff_min_max (v : reflect.Value) (param : string) :
  isFloat v = false →
  builtin.length ParseInt ParseUint ParseFloat v param = Ret None
  ↔ builtin.min ParseInt ParseUint ParseFloat v param = Ret None
    ∧ builtin.max ParseInt ParseUint ParseFloat v param = Ret None.
Proof.
  intros Hfloat.
  unfold builtin.length, builtin.min, builtin.max, builtin.compareRule,
    builtin.asInt, builtin.asUint, builtin.verdict.
  destruct v; try discriminate Hfloat; try (split; [done|by intros [? _]]);
    match goal with
    | |- context [ParseInt param] => destruct (ParseInt param) as [q|]
    | |- context [ParseUint param] => destruct (ParseUint param) as [q|]
    end;
    try (split; [done|by intros [? _]]);
    match goal with
    | |- context [Z.eqb ?x ?y] =>
        destruct (Z.eqb_spec x y), (Z.ltb_spec x y), (Z.ltb_spec y x);
          cbn; try lia; first [by split; [|intros [? ?]]]
    end.
Qed.

(** The pieces [strings.Split] cuts a string into hold no separator. *)
Lemma Split_pieces (s : string) (sep : ascii) :
  Forall (λ piece, Str.all (λ c, negb (Ascii.eqb c sep)) piece = true)
    (strings.Split s sep).
Proof.
  induction s as [|c s IH]; cbn [strings.Split]; [by repeat constructor|].
  destruct (Ascii.eqb c sep) eqn:Hc; [by constructor|].
  destruct (strings.Split s sep) as [|piece pieces]; [by repeat constructor; cbn; rewrite Hc|].
  apply Forall_cons in IH as [Hp Hps]. constructor; [|done].
  cbn [Str.all]. by rewrite Hc, Hp.
Qed.

(** X16. [in] refuses every string value that holds a comma, whatever the
    parameter: the parameter is cut at every comma, quoted in the tag or
    not, so no piece holds one. *)
Theorem in_string_with_comma (t s param : string) :
  hasComma s = true →
  builtin.in_ ParseInt ParseFloat (reflect.OfString t s) param
  = Ret (Some ErrInvalidValue).
Proof.
  intros Hs. unfold builtin.in_, builtin.verdict.
  assert (existsb (String.eqb s) (strings.Split param ","%char) = false) as ->; [|done].
  pose proof (Split_pieces param ","%char) as Hpieces.
  induction Hpieces as [|piece pieces Hp _ IH]; [done|].
  cbn [existsb]. rewrite IH, orb_false_r.
  apply String.eqb_neq. intros ->.
  unfold hasComma in Hs. by rewrite Hp in Hs.
Qed.

Lemma convertAll_None {A : Type} (conv : string → A + error)
    (params : list string) (piece : string) (e : error) :
  piece ∈ params → conv piece = inr e → builtin.convertAll conv params = None.
Proof.
  intros Hin Hconv. induction params as [|p params IH]; [by apply elem_of_nil in Hin|].
  cbn [builtin.convertAll].
  apply elem_of_cons in Hin as [<-|Hin]; [by rewrite Hconv|].
  destruct (conv p); [|done]. by rewrite IH.
Qed.

(** X17. On a number, [in] converts every piece of its parameter before
    it compares anything: one piece that does not convert makes the answer
    the bad-parameter error, also when the value is among the other pieces,
    and on an unsigned value too. *)
Theorem in_unconvertible_piece (v : reflect.Value) (param piece : string) :
  piece ∈ strings.Split param ","%char →
  unconvertible ParseInt ParseFloat v piece →
  builtin.in_ ParseInt ParseFloat v param = Ret (Some ErrBadParameter).
Proof.
  intros Hin Hconv. unfold builtin.in_.
  destruct v; try done; cbn in Hconv.
  - rewrite (convertAll_None _ _ piece ErrBadParameter); [done..|].
    unfold builtin.asInt. by rewrite Hconv.
  - rewrite (convertAll_None _ _ piece ErrBadParameter); [done..|].
    unfold builtin.asInt. by rewrite Hconv.
  - rewrite (convertAll_None _ _ piece ErrBadParameter); [done..|].
    unfold builtin.asFloat. by rewrite Hconv.
Qed.

Lemma convertAll_asInt (params : list string) :
  match builtin.convertAll (builtin.asInt ParseInt) params with
  | Some _ => forallb (λ q, bool_decide (is_Some (ParseInt q))) params = true
  | None => forallb (λ q, bool_decide (is_Some (ParseInt q))) params = false
  end.
Proof.
  induction params as [|p params IH]; [done|].
  cbn [builtin.convertAll forallb]. unfold builtin.asInt at 1.
  destruct (ParseInt p) as [i|]; [|done].
  rewrite bool_decide_eq_true_2 by done.
  by destruct (builtin.convertAll _ params).
Qed.

(** X18. [in] accepts no unsigned integer: it converts the pieces of the
    parameter as signed integers and then reads the value with
    [st.Int()], which panics on an unsigned kind; so the call panics when
    every piece converts and answers the bad-parameter error when one does
    not. *)
Theorem in_unsigned (t : string) (k : reflect.UintKind) (u : Z) (param : string) :
  builtin.in_ ParseInt ParseFloat (reflect.OfUint t k u) param
  = if forallb (λ q, bool_decide (is_Some (ParseInt q)))
         (strings.Split param ","%char)
    then Panic else Ret (Some ErrBadParameter).
Proof.
  unfold builtin.in_.
  pose proof (convertAll_asInt (strings.Split param ","%char)) as H.
  destruct (builtin.convertAll _ _); by rewrite H.
Qed.

End BuiltinRules.

Lemma length_iff_min_max_witness :
  builtin.length (λ _, Some 3%Z) (λ _, None) (λ _, None) (sampleInt 3) "3" = Ret None
  ↔ builtin.min (λ _, Some 3%Z) (λ _, None) (λ _, None) (sampleInt 3) "3" = Ret None
    ∧ builtin.max (λ _, Some 3%Z) (λ _, None) (λ _, None) (sampleInt 3) "3" = Ret None.
Proof.
  apply (length_iff_min_max (λ _, Some 3%Z) (λ _, None) (λ _, None) (sampleInt 3) "3").
  reflexivity.
Defined.

Lemma in_string_with_comma_witness :
  builtin.in_ (λ _, None) (λ _, None) (reflect.OfString "string" "a,b") "a,b"
  = Ret (Some ErrInvalidValue).
Proof.
  apply (in_string_with_comma (λ _, None) (λ _, None) "string" "a,b" "a,b").
  reflexivity.
Defined.

Lemma in_unconvertible_piece_witness :
  builtin.in_ (λ s, if String.eqb s "1" then Some 1%Z else None) (λ _, None)
    (sampleInt 1) "1,x"
  = Ret (Some ErrBadParameter).
Proof.
  apply (in_unconvertible_piece (λ s, if String.eqb s "1" then Some 1%Z else None)
           (λ _, None) (sampleInt 1) "1,x" "x").
  - apply list_elem_of_further, list_elem_of_here.
  - reflexivity.
Defined.

(** ** notEmpty beside notZero *)

(** X19. [notEmpty] and the registered [notZero] on one value: when
    [notEmpty] reports a zero value, so does [notZero]; when [notEmpty]
    panics, so does [notZero]; and on a string, a pointer, an interface, an
    array, map or slice and nil the two agree.  The numbers and booleans,
    which [notZero] tests, are an unsupported type to [notEmpty]. *)
Theorem notEmpty_notZero (v : reflect.Value) (param : string) :
  (notEmpty v param = Ret (Some ErrZeroValue)
   → builtin.notZero v param = Ret (Some ErrZeroValue))
  ∧ (notEmpty v param = Panic → builtin.notZero v param = Panic)
  ∧ (match v with
     | reflect.Zero | reflect.OfString _ _ | reflect.OfPtr _ _
     | reflect.OfInterface _ _ | reflect.OfSeq _ _ _ =>
         notEmpty v param = builtin.notZero v param
     | reflect.OfBool _ _ | reflect.OfInt _ _ _ | reflect.OfUint _ _ _
     | reflect.OfFloat _ _ _ | reflect.OfOther _ _ =>
         notEmpty v param = Ret (Some ErrUnsupported)
     | reflect.OfStruct _ _ => True
     end).
Proof.
  destruct v as [| | | | | | | | | |typ fields]; try done.
  split_and!; [| |done]; cbn [notEmpty builtin.notZero];
    destruct (strings.Contains _ _); try done;
    destruct (reflect.FieldByName fields "Valid") as [[sf fv]|]; try done;
    cbn [snd]; destruct fv as [|? []| | | | | | | | |]; try done.
Qed.

Lemma notEmpty_notZero_witness :
  builtin.notZero (nullInt 0 false) "" = Ret (Some ErrZeroValue).
Proof.
  apply (proj1 (notEmpty_notZero (nullInt 0 false) "")). reflexivity.
Defined.

(** The package's test of notEmpty, on the model. *)
Example notEmpty_package_test :
  notEmpty (nullInt 0 false) "" = Ret (Some ErrZeroValue)
  ∧ notEmpty (nullInt 42 true) "" = Ret None.
Proof. split; reflexivity. Qed.

(** ** Not-a-number under the comparison rules *)

Lemma ltb_nan_l (q : PrimFloat.float) : PrimFloat.ltb PrimFloat.nan q = false.
Proof. rewrite FloatAxioms.ltb_spec. reflexivity. Qed.

Lemma ltb_nan_r (q : PrimFloat.float) : PrimFloat.ltb q PrimFloat.nan = false.
Proof.
  rewrite FloatAxioms.ltb_spec.
  change (FloatOps.Prim2SF PrimFloat.nan) with SpecFloat.S754_nan.
  by destruct (FloatOps.Prim2SF q) as [| | |[]].
Qed.

Lemma eqb_nan_l (q : PrimFloat.float) : PrimFloat.eqb PrimFloat.nan q = false.
Proof. rewrite FloatAxioms.eqb_spec. reflexivity. Qed.

(** X20. A floating-point value that is not a number passes [min] and
    [max] with every parameter that converts, and fails [len] with every
    such parameter: the rules report invalid when a comparison holds, and
    no comparison with not-a-number does. *)
Theorem nan_passes_min_max (ParseInt ParseUint : string → option Z)
    (ParseFloat : string → option PrimFloat.float)
    (t : string) (k : reflect.FloatKind) (param : string) (q : PrimFloat.float) :
  ParseFloat param = Some q →
  builtin.min ParseInt ParseUint ParseFloat (reflect.OfFloat t k PrimFloat.nan) param
  = Ret None
  ∧ builtin.max ParseInt ParseUint ParseFloat (reflect.OfFloat t k PrimFloat.nan) param
    = Ret None
  ∧ builtin.length ParseInt ParseUint ParseFloat (reflect.OfFloat t k PrimFloat.nan) param
    = Ret (Some ErrLen).
Proof.
  intros Hq.
  unfold builtin.min, builtin.max, builtin.length, builtin.compareRule,
    builtin.asFloat, builtin.verdict.
  by rewrite Hq, ltb_nan_l, ltb_nan_r, eqb_nan_l.
Qed.

Lemma nan_passes_min_max_witness :
  builtin.min (λ _, None) (λ _, None) (λ _, Some PrimFloat.zero)
    (reflect.OfFloat "float64" reflect.float64 PrimFloat.nan) "0"
  = Ret None
  ∧ builtin.max (λ _, None) (λ _, None) (λ _, Some PrimFloat.zero)
      (reflect.OfFloat "float64" reflect.float64 PrimFloat.nan) "0"
    = Ret None
  ∧ builtin.length (λ _, None) (λ _, None) (λ _, Some PrimFloat.zero)
      (reflect.OfFloat "float64" reflect.float64 PrimFloat.nan) "0"
    = Ret (Some ErrLen).
Proof.
  apply (nan_passes_min_max (λ _, None) (λ _, None) (λ _, Some PrimFloat.zero)
           "float64" reflect.float64 "0" PrimFloat.zero).
  reflexivity.
Defined.

(** ** Validators behind pointers *)

(** X21. On the validator a pointer refers to, the methods do what the
    functions on a validator value say: SetValidationFunc returns the same
    error and leaves the pointer referring to the validator the function
    gives, and so does SetTag. *)
Theorem ptr_methods_agree (h : ptr.Heap) (p : nat) (mv : Validator)
    (name tag : string) (vf : option ValidationFunc) :
  ptr.load h p = Some mv →
  (∃ h', ptr.SetValidationFunc p name vf h
         = Ret ((SetValidationFunc name vf mv).1, h')
         ∧ ptr.load h' p = Some (SetValidationFunc name vf mv).2)
  ∧ (∃ h', ptr.SetTag p tag h = Ret h'
           ∧ ptr.load h' p = Some (SetTag tag mv)).
Proof.
  unfold ptr.load. intros Hload.
  destruct (ptr.structs h !! p) as [[tg r]|] eqn:Hp; [|done].
  cbn in Hload. destruct (ptr.maps h !! r) as [m|] eqn:Hr; [|done].
  injection Hload as <-. split.
  - unfold ptr.SetValidationFunc, SetValidationFunc.
    case_bool_decide as Hname.
    + eexists. split; [done|]. unfold ptr.load. by rewrite Hp; cbn; rewrite Hr.
    + rewrite Hp. destruct vf as [f|].
      * rewrite Hr. eexists. split; [done|]. unfold ptr.load. cbn.
        rewrite Hp. cbn. by rewrite lookup_insert_eq.
      * eexists. split; [done|]. unfold ptr.load. cbn.
        rewrite Hp. cbn. by rewrite lookup_alter_eq, Hr.
  - unfold ptr.SetTag. rewrite Hp. eexists. split; [done|].
    unfold ptr.load. cbn. rewrite lookup_insert_eq. cbn. by rewrite Hr.
Qed.

Lemma ptr_methods_agree_witness :
  (∃ h', ptr.SetValidationFunc 0 "min" None
           (ptr.mkHeap {[ 0 := ("validate", 0) ]} {[ 0 := validationFuncs sampleRegistry ]})
         = Ret ((SetValidationFunc "min" None sampleRegistry).1, h')
         ∧ ptr.load h' 0 = Some (SetValidationFunc "min" None sampleRegistry).2)
  ∧ (∃ h', ptr.SetTag 0 "json"
             (ptr.mkHeap {[ 0 := ("validate", 0) ]} {[ 0 := validationFuncs sampleRegistry ]})
           = Ret h'
           ∧ ptr.load h' 0 = Some (SetTag "json" sampleRegistry)).
Proof.
  apply (ptr_methods_agree
           (ptr.mkHeap {[ 0 := ("validate", 0) ]} {[ 0 := validationFuncs sampleRegistry ]})
           0 sampleRegistry "min" "json" None).
  reflexivity.
Defined.

(** X22. WithTag gives a pointer to a new validator with the new tag
    name and leaves the one it was called on as it was; the two share the
    map of validation functions: a function set or removed through the new
    pointer is set or removed for the old one as well, while a tag name set
    through the new pointer stays with the new one. *)
Theorem WithTag_shares_funcs (h : ptr.Heap) (p : nat) (mv : Validator)
    (tag : string) :
  ptr.load h p = Some mv →
  ∃ v h1, ptr.WithTag p tag h = Ret (v, h1) ∧ v ≠ p
    ∧ ptr.load h1 p = Some mv
    ∧ ptr.load h1 v = Some (SetTag tag mv)
    ∧ (∀ name vf, name ≠ "" →
         ∃ h2, ptr.SetValidationFunc v name vf h1 = Ret (None, h2)
               ∧ ptr.load h2 p = Some (SetValidationFunc name vf mv).2
               ∧ ptr.load h2 v = Some (SetValidationFunc name vf (SetTag tag mv)).2)
    ∧ (∀ tag', ∃ h2, ptr.SetTag v tag' h1 = Ret h2
                     ∧ ptr.load h2 p = Some mv
                     ∧ ptr.load h2 v = Some (SetTag tag' mv)).
Proof.
  unfold ptr.load. intros Hload.
  destruct (ptr.structs h !! p) as [[tg r]|] eqn:Hp; [|done].
  cbn in Hload. destruct (ptr.maps h !! r) as [m|] eqn:Hr; [|done].
  injection Hload as <-.
  pose proof (is_fresh (dom (ptr.structs h))) as Hfresh.
  apply not_elem_of_dom_1 in Hfresh.
  set (v := fresh (dom (ptr.structs h))) in *.
  assert (v ≠ p) as Hne by (intros ->; congruence).
  unfold ptr.WithTag, ptr.copy, ptr.SetTag. rewrite Hp. cbn.
  fold v. rewrite lookup_insert_eq, insert_insert_eq.
  eexists v, _. split; [done|]. split; [done|].
  unfold ptr.load, ptr.SetValidationFunc, SetValidationFunc, ptr.SetTag, SetTag.
  cbn. rewrite lookup_insert_eq, lookup_insert_ne, Hp by done. cbn. rewrite Hr.
  split_and!; [done..| |].
  - intros name vf Hname. rewrite (bool_decide_eq_false_2 _ Hname).
    destruct vf as [f|]; eexists; (split; [done|]); cbn;
      rewrite lookup_insert_eq, lookup_insert_ne, Hp by done; cbn.
    + by rewrite lookup_insert_eq.
    + by rewrite lookup_alter_eq, Hr.
  - intros tag'. eexists. split; [done|]. cbn.
    rewrite lookup_insert_eq, insert_insert_eq, lookup_insert_ne, Hp by done.
    cbn. by rewrite Hr.
Qed.

Lemma WithTag_shares_funcs_witness :
  ∃ v h1,
    ptr.WithTag 0 "json"
      (ptr.mkHeap {[ 0 := ("validate", 0) ]} {[ 0 := validationFuncs sampleRegistry ]})
    = Ret (v, h1) ∧ v ≠ 0
    ∧ ptr.load h1 0 = Some sampleRegistry
    ∧ ptr.load h1 v = Some (SetTag "json" sampleRegistry)
    ∧ (∀ name vf, name ≠ "" →
         ∃ h2, ptr.SetValidationFunc v name vf h1 = Ret (None, h2)
               ∧ ptr.load h2 0 = Some (SetValidationFunc name vf sampleRegistry).2
               ∧ ptr.load h2 v
                 = Some (SetValidationFunc name vf (SetTag "json" sampleRegistry)).2)
    ∧ (∀ tag', ∃ h2, ptr.SetTag v tag' h1 = Ret h2
                     ∧ ptr.load h2 0 = Some sampleRegistry
                     ∧ ptr.load h2 v = Some (SetTag tag' sampleRegistry)).
Proof.
  apply (WithTag_shares_funcs
           (ptr.mkHeap {[ 0 := ("validate", 0) ]} {[ 0 := validationFuncs sampleRegistry ]})
           0 sampleRegistry "json").
  reflexivity.
Defined.

(** ** The methods of ErrorMap *)

Lemma firstNonNil_Some (visit : list (string * option error)) (k : string) (e : error) :
  errorMap.firstNonNil visit = Some (k, e) → (k, Some e) ∈ visit.
Proof.
  induction visit as [|[j [x|]] visit IH]; cbn [errorMap.firstNonNil]; [done| |].
  - intros [= -> ->]. apply list_elem_of_here.
  - intros H. apply list_elem_of_further. by apply IH.
Qed.

Lemma firstNonNil_None (visit : list (string * option error)) :
  errorMap.firstNonNil visit = None ↔ Forall (λ ke, ke.2 = None) visit.
Proof.
  induction visit as [|[j [x|]] visit IH]; cbn [errorMap.firstNonNil].
  - done.
  - split; [done|]. by intros [? _]%Forall_cons.
  - rewrite IH. split; [by constructor|]. by intros [_ ?]%Forall_cons.
Qed.

Lemma text_nonempty (ke : string * error) : errorMap.text ke ≠ "".
Proof.
  unfold errorMap.text. intros H. apply (f_equal String.length) in H.
  rewrite !length_app_str in H. cbn in H. lia.
Qed.

(** X23. The methods Error and String of an ErrorMap answer from one
    entry whose error is not nil, with the text made of the key, a colon
    and a blank, and the text of the error; they answer nil and the empty
    text exactly when every entry holds nil. *)
Theorem ErrorMap_Error_entry (m : gmap string (option error))
    (visit : list (string * option error)) :
  visit ≡ₚ map_to_list m →
  (errorMap.Error visit = None ↔ map_Forall (λ _ e, e = None) m)
  ∧ (errorMap.String visit = "" ↔ errorMap.Error visit = None)
  ∧ (∀ err, errorMap.Error visit = Some err →
       ∃ k e, m !! k = Some (Some e)
              ∧ err = errors_New (k +:+ ": " +:+ Error e)
              ∧ errorMap.String visit = k +:+ ": " +:+ Error e).
Proof.
  intros Hvisit. unfold errorMap.Error, errorMap.String. split_and!.
  - rewrite fmap_None, firstNonNil_None, Hvisit.
    rewrite (map_Forall_to_list (M := gmap string)).
    apply Forall_iff. by intros [k e].
  - destruct (errorMap.firstNonNil visit) as [ke|]; cbn; [|done].
    split; [|done]. intros H. by destruct (text_nonempty ke).
  - intros err. destruct (errorMap.firstNonNil visit) as [[k e]|] eqn:Hf; [|done].
    cbn. intros [= <-]. exists k, e. split; [|done].
    apply firstNonNil_Some in Hf. rewrite Hvisit in Hf.
    by apply elem_of_map_to_list in Hf.
Qed.

Lemma ErrorMap_Error_entry_witness :
  (errorMap.Error [("Zip", None); ("City", Some ErrMax)] = None
   ↔ map_Forall (λ _ e, e = None)
       (<["Zip" := None]> {[ "City" := Some ErrMax ]} : gmap string (option error)))
  ∧ (errorMap.String [("Zip", None); ("City", Some ErrMax)] = ""
     ↔ errorMap.Error [("Zip", None); ("City", Some ErrMax)] = None)
  ∧ (∀ err, errorMap.Error [("Zip", None); ("City", Some ErrMax)] = Some err →
       ∃ k e, (<["Zip" := None]> {[ "City" := Some ErrMax ]}
                 : gmap string (option error)) !! k = Some (Some e)
              ∧ err = errors_New (k +:+ ": " +:+ Error e)
              ∧ errorMap.String [("Zip", None); ("City", Some ErrMax)]
                = k +:+ ": " +:+ Error e).
Proof.
  apply (ErrorMap_Error_entry (<["Zip" := None]> {[ "City" := Some ErrMax ]})
           [("Zip", None); ("City", Some ErrMax)]).
  rewrite map_to_list_insert by reflexivity.
  by rewrite map_to_list_singleton.
Defined.

(** X24. Which entry Error answers from is up to the order of the range:
    for every entry whose error is not nil there is an order of the map's
    entries under which Error answers from that entry.  It need not be the
    entry that was added first. *)
Theorem ErrorMap_Error_any_entry (m : gmap string (option error))
    (k : string) (e : error) :
  m !! k = Some (Some e) →
  ∃ visit, visit ≡ₚ map_to_list m
           ∧ errorMap.Error visit = Some (errors_New (k +:+ ": " +:+ Error e)).
Proof.
  intros Hk. exists ((k, Some e) :: map_to_list (delete k m)). split; [|done].
  rewrite <- map_to_list_insert by apply lookup_delete_eq.
  by rewrite insert_delete_id.
Qed.

Lemma ErrorMap_Error_any_entry_witness :
  ∃ visit,
    visit ≡ₚ map_to_list (<["Zip" := Some ErrMin]> {[ "City" := Some ErrMax ]}
                            : gmap string (option error))
    ∧ errorMap.Error visit = Some (errors_New ("City" +:+ ": " +:+ Error ErrMax)).
Proof.
  apply (ErrorMap_Error_any_entry
           (<["Zip" := Some ErrMin]> {[ "City" := Some ErrMax ]}) "City" ErrMax).
  reflexivity.
Defined.

(** X25. For a map as Validate builds it, where no entry holds nil,
    IsEmpty is true exactly when Error answers nil. *)
Theorem IsEmpty_iff_no_error (m : ErrorMap) (visit : list (string * option error)) :
  visit ≡ₚ map_to_list (asGoMap m) →
  errorMap.IsEmpty (asGoMap m) = true ↔ errorMap.Error visit = None.
Proof.
  intros Hvisit. unfold errorMap.IsEmpty, errorMap.Error, asGoMap in *.
  rewrite bool_decide_eq_true, map_size_fmap, map_size_empty_iff.
  rewrite fmap_None, firstNonNil_None, Hvisit.
  split.
  - intros ->. rewrite fmap_empty, map_to_list_empty. constructor.
  - intros Hall. apply map_empty. intros k.
    destruct (m !! k) as [e|] eqn:Hk; [|done].
    rewrite Forall_forall in Hall. specialize (Hall (k, Some e)).
    rewrite elem_of_map_to_list, lookup_fmap, Hk in Hall.
    by specialize (Hall eq_refl).
Qed.

Lemma IsEmpty_iff_no_error_witness :
  errorMap.IsEmpty (asGoMap {[ "Zip" := ErrMin ]}) = true
  ↔ errorMap.Error [("Zip", Some ErrMin)] = None.
Proof.
  apply (IsEmpty_iff_no_error {[ "Zip" := ErrMin ]} [("Zip", Some ErrMin)]).
  unfold asGoMap. by rewrite map_fmap_singleton, map_to_list_singleton.
Defined.

(** A map with a nil entry is not empty and has no error to report. *)
Example IsEmpty_nil_entry :
  errorMap.IsEmpty {[ "Zip" := None ]} = false
  ∧ errorMap.Error [("Zip", None)] = None.
Proof. split; reflexivity. Qed.

(** ** The registry NewValidator builds *)

(** X26. In the registry NewValidator builds, the rule named [empty] is
    the rule named [notempty]: a directive [empty] accepts and refuses what
    [notempty] does, with the same errors and the same panics; the empty
    string fails it with the zero-value error. *)
Theorem empty_rule_is_notempty (ParseInt ParseUint : string → option Z)
    (ParseFloat : string → option PrimFloat.float)
    (Compile : string → option (string → bool))
    (ParseRFC3339 MatchBase64 : string → bool)
    (v : reflect.Value) (p t : string) :
  (validateVar
     (builtin.NewValidator ParseInt ParseUint ParseFloat Compile ParseRFC3339 MatchBase64)
     v [mkTag "empty" p]).2
  = (validateVar
       (builtin.NewValidator ParseInt ParseUint ParseFloat Compile ParseRFC3339 MatchBase64)
       v [mkTag "notempty" p]).2
  ∧ (validateVar
       (builtin.NewValidator ParseInt ParseUint ParseFloat Compile ParseRFC3339 MatchBase64)
       (reflect.OfString t "") [mkTag "empty" p]).2
    = Ret (Some (ErrorArray [ErrZeroValue])).
Proof.
  unfold validateVar. cbn [validateVarLoop Name Param].
  change (validationFuncs (builtin.NewValidator _ _ _ _ _ _) !! "empty")
    with (Some builtin.notZero).
  change (validationFuncs (builtin.NewValidator _ _ _ _ _ _) !! "notempty")
    with (Some builtin.notZero).
  split; [|done]. by destruct (builtin.notZero v p) as [[e|]|].
Qed.

(** ** Valid on a raw tag string *)

(** X27. Valid answers the dash with nil for every value, a struct
    included, and without a look at the value; a tag string that does not
    parse with the unknown-tag error, for a struct too; and any other tag
    string as valid answers its directives: the unsupported-type error for
    a value that ends in a struct, and what validateVar says of the value
    behind the pointers otherwise. *)
Theorem Valid_result (mv : Validator) (v : reflect.Value) (tagsRaw : string) :
  Valid mv v tagsRaw
  = if bool_decide (tagsRaw = "-") then ([], Ret None)
    else if bool_decide ((parseTags tagsRaw).2 = None)
    then if bool_decide (reflect.KindOf (pointee v) = reflect.Struct)
         then ([], Ret (Some ErrUnsupported))
         else validateVar mv (pointee v) (parseTags tagsRaw).1
    else ([], Ret (Some ErrUnknownTag)).
Proof.
  unfold Valid. case_bool_decide; [done|].
  destruct (parseTags tagsRaw) as [tags [e|]] eqn:Hp; cbn [fst snd].
  - rewrite bool_decide_eq_false_2 by done.
    unfold parseTags in Hp. by apply parseGroups_error in Hp as [_ ->].
  - rewrite bool_decide_eq_true_2 by done. apply valid_pointee.
Qed.

(** ** Two fields reported under one name *)

(** X28. When two exported fields that are not structs are reported
    under the same name, through an attr alias or otherwise, and both
    fail, the map Validate returns holds one entry under that name, with
    the first error of the later field; the error of the earlier field is
    gone. *)
Theorem Validate_same_name_overwrites
    (rangeOrder : ErrorMap → list (string * error)) (mv : Validator)
    (typ : string) (sf1 sf2 : reflect.StructField) (fv1 fv2 : reflect.Value)
    (tags1 tags2 : tagList) (r1 r2 : option error) (e1 e2 : error) :
  reflect.Get (reflect.Tag sf1) (tagName mv) ≠ "-" →
  reflect.Get (reflect.Tag sf2) (tagName mv) ≠ "-" →
  reflect.Get (reflect.Tag sf1) (tagName mv) ≠ "" →
  reflect.Get (reflect.Tag sf2) (tagName mv) ≠ "" →
  parseTags (reflect.Get (reflect.Tag sf1) (tagName mv)) = (tags1, None) →
  parseTags (reflect.Get (reflect.Tag sf2) (tagName mv)) = (tags2, None) →
  reflect.PkgPath sf1 = "" → reflect.PkgPath sf2 = "" →
  reflect.KindOf (reflect.deref fv1) ≠ reflect.Struct →
  reflect.KindOf (reflect.deref fv2) ≠ reflect.Struct →
  (valid mv (reflect.Interface_ (reflect.deref fv1)) tags1).2 = Ret r1 →
  (valid mv (reflect.Interface_ (reflect.deref fv2)) tags2).2 = Ret r2 →
  firstError r1 = Some e1 → firstError r2 = Some e2 →
  displayName sf1 tags1 = displayName sf2 tags2 →
  Validate rangeOrder mv (reflect.OfStruct typ [(sf1, fv1); (sf2, fv2)])
  = Ret {[ displayName sf2 tags2 := e2 ]}.
Proof.
  intros Hd1 Hd2 He1 He2 Hp1 Hp2 Hx1 Hx2 Hk1 Hk2 Hv1 Hv2 Hf1 Hf2 Hname.
  rewrite Validate_struct. cbn [validateFields].
  rewrite (validateField_scalar _ _ _ _ _ _ tags1 r1) by done. cbn.
  rewrite (validateField_scalar _ _ _ _ _ _ tags2 r2) by done. cbn.
  rewrite Hf1, Hf2, Hname. unfold record.
  by rewrite insert_insert_eq, insert_empty.
Qed.

Lemma Validate_same_name_overwrites_witness :
  Validate map_to_list sampleRegistry
    (reflect.OfStruct "main.Pair"
       [ (sampleField "Low" "min=3,attr=bound", sampleInt 1);
         (sampleField "High" "max=0,attr=bound", sampleInt 1) ])
  = Ret {[ "bound" := ErrMax ]}.
Proof.
  apply (Validate_same_name_overwrites map_to_list sampleRegistry "main.Pair"
           (sampleField "Low" "min=3,attr=bound")
           (sampleField "High" "max=0,attr=bound")
           (sampleInt 1) (sampleInt 1)
           [mkTag "min" "3"; mkTag "attr" "bound"]
           [mkTag "max" "0"; mkTag "attr" "bound"]
           (Some (ErrorArray [ErrMin])) (Some (ErrorArray [ErrMax]))
           ErrMin ErrMax);
    try reflexivity; discriminate.
Defined.
